(** * objects-tasks.js: a shallow embedding

    The development follows [src/objects-tasks.js].  It covers the CSS
    selector builder ([Selector], [CombinedSelector], [cssSelectorBuilder])
    and the stand-alone helpers [shallowCopy], [mergeObjects],
    [removeProperties], [compareObjects], [isEmptyObject], [makeWord],
    [sellTickets], [sortCitiesArray] and [group].

    Conventions.
    - JavaScript strings are [string]; [null] in an optional field is [None].
    - A method of [class Selector] runs against the object [this], which it
      may update in place, and either returns a value or throws.  It is a
      function from the receiver to the receiver afterwards paired with the
      outcome ([Selector.method]).
    - The two [Error]s thrown by the builder differ only by their message;
      they are the two constructors of [error]. *)

From Stdlib Require Import ZArith Lia.
From stdpp Require Import strings list sorting.

Local Open Scope Z_scope.

(** ** Fragment categories *)

(** The six strings handed to [checkOrder]; they are the keys of [orderMap]
    and the entries of [this.order]. *)
Inductive part : Set :=
  | PElement
  | PId
  | PClass
  | PAttr
  | PPseudoClass
  | PPseudoElement.

#[global] Instance part_eq_dec : EqDecision part.
Proof. solve_decision. Defined.

(** ** Errors *)

Inductive error : Set :=
  | DuplicateSelectorPartError
  | InvalidSelectorOrderError.

(** The text given to [new Error(...)] at the two [throw] sites. *)
Definition message (e : error) : string :=
  match e with
  | DuplicateSelectorPartError =>
      "Element, id and pseudo-element should not occur more than one time inside the selector"
  | InvalidSelectorOrderError =>
      "Selector parts should be arranged in the following order: element, id, class, attribute, pseudo-class, pseudo-element"
  end.

(** JavaScript truthiness of a string: every string but the empty one. *)
Definition truthy (s : string) : bool := negb (String.eqb s "").

(** ** class Selector *)

Module Selector.

Record t : Set := mk {
  elementName : option string;
  idName : option string;
  classes : list string;
  attributes : list string;
  pseudoClasses : list string;
  pseudoElementName : option string;
  order : list part
}.

(** [constructor()] *)
Definition new : t :=
  {| elementName := None; idName := None; classes := []; attributes := [];
     pseudoClasses := []; pseudoElementName := None; order := [] |}.

(** *** Method bodies: state [this] and exceptions *)

Definition method (A : Type) : Type := t -> t * (error + A).

Definition ret {A} (a : A) : method A := fun this => (this, inr a).

Definition throw {A} (e : error) : method A := fun this => (this, inl e).

Definition bind {A B} (m : method A) (k : A -> method B) : method B :=
  fun this =>
    match m this with
    | (this', inr a) => k a this'
    | (this', inl e) => (this', inl e)
    end.

(** Read a field of [this]. *)
Definition gets {A} (f : t -> A) : method A := fun this => (this, inr (f this)).

(** Update [this] in place. *)
Definition modify (f : t -> t) : method unit := fun this => (f this, inr tt).

Declare Scope method_scope.
Delimit Scope method_scope with method.
Notation "'let*' x ':=' m 'in' k" := (bind m (fun x => k))
  (at level 10, x name, m at level 100, k at level 200) : method_scope.
Notation "m ';;;' k" := (bind m (fun _ => k))
  (at level 100, k at level 200, right associativity) : method_scope.
Local Open Scope method_scope.

(** *** checkOrder *)

Definition orderMap (p : part) : Z :=
  match p with
  | PElement => 1
  | PId => 2
  | PClass => 3
  | PAttr => 4
  | PPseudoClass => 5
  | PPseudoElement => 6
  end.

(** [this.order.push(part)] *)
Definition push_order (p : part) (this : t) : t :=
  {| elementName := elementName this; idName := idName this;
     classes := classes this; attributes := attributes this;
     pseudoClasses := pseudoClasses this;
     pseudoElementName := pseudoElementName this;
     order := order this ++ [p] |}.

(** [last] is [this.order[this.order.length - 1]], [undefined] ([None]) on
    the empty array; an entry of [order] is a non-empty string, so
    [last && ...] is the comparison whenever there is a last entry. *)
Definition checkOrder (p : part) : method unit :=
  let* last := gets (fun this => last (order this)) in
  if match last with
     | Some l => orderMap l >? orderMap p
     | None => false
     end
  then throw InvalidSelectorOrderError
  else modify (push_order p).

(** *** ensureSingle (static) *)

Definition ensureSingle (value : option string) : method unit :=
  match value with
  | Some _ => throw DuplicateSelectorPartError
  | None => ret tt
  end.

(** *** clone *)

(** A fresh object; the four arrays are spread into new arrays, so the
    copy shares no array with [this]. *)
Definition clone : method t :=
  gets (fun this =>
    {| elementName := elementName this;
       idName := idName this;
       classes := classes this;
       attributes := attributes this;
       pseudoClasses := pseudoClasses this;
       pseudoElementName := pseudoElementName this;
       order := order this |}).

(** Assignments to the fields of the local object [copy]. *)
Definition set_elementName (value : string) (copy : t) : t :=
  {| elementName := Some value; idName := idName copy;
     classes := classes copy; attributes := attributes copy;
     pseudoClasses := pseudoClasses copy;
     pseudoElementName := pseudoElementName copy; order := order copy |}.

Definition set_idName (value : string) (copy : t) : t :=
  {| elementName := elementName copy; idName := Some value;
     classes := classes copy; attributes := attributes copy;
     pseudoClasses := pseudoClasses copy;
     pseudoElementName := pseudoElementName copy; order := order copy |}.

Definition push_classes (value : string) (copy : t) : t :=
  {| elementName := elementName copy; idName := idName copy;
     classes := classes copy ++ [value]; attributes := attributes copy;
     pseudoClasses := pseudoClasses copy;
     pseudoElementName := pseudoElementName copy; order := order copy |}.

Definition push_attributes (value : string) (copy : t) : t :=
  {| elementName := elementName copy; idName := idName copy;
     classes := classes copy; attributes := attributes copy ++ [value];
     pseudoClasses := pseudoClasses copy;
     pseudoElementName := pseudoElementName copy; order := order copy |}.

Definition push_pseudoClasses (value : string) (copy : t) : t :=
  {| elementName := elementName copy; idName := idName copy;
     classes := classes copy; attributes := attributes copy;
     pseudoClasses := pseudoClasses copy ++ [value];
     pseudoElementName := pseudoElementName copy; order := order copy |}.

Definition set_pseudoElementName (value : string) (copy : t) : t :=
  {| elementName := elementName copy; idName := idName copy;
     classes := classes copy; attributes := attributes copy;
     pseudoClasses := pseudoClasses copy;
     pseudoElementName := Some value; order := order copy |}.

(** *** The six fragment-adding methods *)

Definition element (value : string) : method t :=
  (let* name := gets elementName in ensureSingle name) ;;;
  checkOrder PElement ;;;
  let* copy := clone in
  ret (set_elementName value copy).

Definition id (value : string) : method t :=
  (let* name := gets idName in ensureSingle name) ;;;
  checkOrder PId ;;;
  let* copy := clone in
  ret (set_idName value copy).

Definition class (value : string) : method t :=
  checkOrder PClass ;;;
  let* copy := clone in
  ret (push_classes value copy).

Definition attr (value : string) : method t :=
  checkOrder PAttr ;;;
  let* copy := clone in
  ret (push_attributes value copy).

Definition pseudoClass (value : string) : method t :=
  checkOrder PPseudoClass ;;;
  let* copy := clone in
  ret (push_pseudoClasses value copy).

Definition pseudoElement (value : string) : method t :=
  (let* name := gets pseudoElementName in ensureSingle name) ;;;
  checkOrder PPseudoElement ;;;
  let* copy := clone in
  ret (set_pseudoElementName value copy).

(** *** stringify *)

Definition mapClass (c : string) : string := "." +:+ c.
Definition mapAttr (a : string) : string := "[" +:+ a +:+ "]".
Definition mapPseudoClass (pc : string) : string := ":" +:+ pc.

(** [x || ''] and [x ? f(x) : ''] on a field that is [null] or a string. *)
Definition or_empty (x : option string) : string :=
  match x with
  | Some s => if truthy s then s else ""
  | None => ""
  end.

Definition if_truthy (x : option string) (f : string -> string) : string :=
  match x with
  | Some s => if truthy s then f s else ""
  | None => ""
  end.

Definition stringify (this : t) : string :=
  or_empty (elementName this) +:+
  if_truthy (idName this) (fun idName => "#" +:+ idName) +:+
  String.concat "" (mapClass <$> classes this) +:+
  String.concat "" (mapAttr <$> attributes this) +:+
  String.concat "" (mapPseudoClass <$> pseudoClasses this) +:+
  if_truthy (pseudoElementName this)
    (fun pseudoElementName => "::" +:+ pseudoElementName).

End Selector.

(** ** CombinedSelector and the selector-like values *)

(** [combine] takes anything with a [stringify] method: a [Selector] or a
    [CombinedSelector], whose two children are again selector-like. *)
Inductive SelectorLike : Set :=
  | OfSelector (s : Selector.t)
  | CombinedSelector (selector1 : SelectorLike) (combinator : string)
      (selector2 : SelectorLike).

(** Dispatch of [x.stringify()]; the second case is [combinedStringify]. *)
Fixpoint stringify (x : SelectorLike) : string :=
  match x with
  | OfSelector s => Selector.stringify s
  | CombinedSelector selector1 combinator selector2 =>
      stringify selector1 +:+ " " +:+ combinator +:+ " " +:+ stringify selector2
  end.

(** ** cssSelectorBuilder *)

Module cssSelectorBuilder.

(** [new Selector().m(value)]: the outcome of the call; the temporary
    receiver is dropped. *)
Definition element (value : string) : error + Selector.t :=
  snd (Selector.element value Selector.new).

Definition id (value : string) : error + Selector.t :=
  snd (Selector.id value Selector.new).

Definition class (value : string) : error + Selector.t :=
  snd (Selector.class value Selector.new).

Definition attr (value : string) : error + Selector.t :=
  snd (Selector.attr value Selector.new).

Definition pseudoClass (value : string) : error + Selector.t :=
  snd (Selector.pseudoClass value Selector.new).

Definition pseudoElement (value : string) : error + Selector.t :=
  snd (Selector.pseudoElement value Selector.new).

Definition combine (selector1 : SelectorLike) (combinator : string)
    (selector2 : SelectorLike) : SelectorLike :=
  CombinedSelector selector1 combinator selector2.

End cssSelectorBuilder.

(** ** Calls and lineages *)

(** A fragment-adding call: the method and its argument. *)
Definition call : Set := part * string.

(** [s.m(value)] for the method [m] of category [c.1]. *)
Definition invoke (c : call) : Selector.method Selector.t :=
  match c.1 with
  | PElement => Selector.element c.2
  | PId => Selector.id c.2
  | PClass => Selector.class c.2
  | PAttr => Selector.attr c.2
  | PPseudoClass => Selector.pseudoClass c.2
  | PPseudoElement => Selector.pseudoElement c.2
  end.

(** [cssSelectorBuilder.m(value)] *)
Definition facade (c : call) : error + Selector.t :=
  match c.1 with
  | PElement => cssSelectorBuilder.element c.2
  | PId => cssSelectorBuilder.id c.2
  | PClass => cssSelectorBuilder.class c.2
  | PAttr => cssSelectorBuilder.attr c.2
  | PPseudoClass => cssSelectorBuilder.pseudoClass c.2
  | PPseudoElement => cssSelectorBuilder.pseudoElement c.2
  end.

(** [s.m1(v1).m2(v2)...]: every call is made on the value returned by the
    call before it; the first exception ends the chain. *)
Fixpoint chain (s : Selector.t) (cs : list call) : error + Selector.t :=
  match cs with
  | [] => inr s
  | c :: cs' =>
      match invoke c s with
      | (_, inr s') => chain s' cs'
      | (_, inl e) => inl e
      end
  end.

(** [cssSelectorBuilder.m0(v0).m1(v1)...]: a lineage starts at the facade. *)
Definition lineage (first : call) (rest : list call) : error + Selector.t :=
  match facade first with
  | inr s => chain s rest
  | inl e => inl e
  end.

(** The categories of a call sequence, and the arguments given for one
    category, in call order. *)
Definition parts_of (cs : list call) : list part := fst <$> cs.

Definition values_of (p : part) (cs : list call) : list string :=
  snd <$> filter (fun c : call => c.1 = p) cs.

(** The categories that may occur once: the methods that call
    [ensureSingle]. *)
Definition single (p : part) : bool :=
  match p with
  | PElement | PId | PPseudoElement => true
  | _ => false
  end.

(** The field a category writes, as the list of the values it holds. *)
Definition field (p : part) (s : Selector.t) : list string :=
  match p with
  | PElement => option_list (Selector.elementName s)
  | PId => option_list (Selector.idName s)
  | PClass => Selector.classes s
  | PAttr => Selector.attributes s
  | PPseudoClass => Selector.pseudoClasses s
  | PPseudoElement => option_list (Selector.pseudoElementName s)
  end.

(** What [invoke] does, read off the method bodies: the guards of
    [ensureSingle] and [checkOrder], and the assignment to the copy. *)
Definition occupied (p : part) (s : Selector.t) : bool :=
  match p with
  | PElement => bool_decide (is_Some (Selector.elementName s))
  | PId => bool_decide (is_Some (Selector.idName s))
  | PPseudoElement => bool_decide (is_Some (Selector.pseudoElementName s))
  | _ => false
  end.

Definition out_of_order (p : part) (s : Selector.t) : bool :=
  match last (Selector.order s) with
  | Some l => Selector.orderMap l >? Selector.orderMap p
  | None => false
  end.

Definition extend (c : call) (copy : Selector.t) : Selector.t :=
  match c.1 with
  | PElement => Selector.set_elementName c.2 copy
  | PId => Selector.set_idName c.2 copy
  | PClass => Selector.push_classes c.2 copy
  | PAttr => Selector.push_attributes c.2 copy
  | PPseudoClass => Selector.push_pseudoClasses c.2 copy
  | PPseudoElement => Selector.set_pseudoElementName c.2 copy
  end.

(** *** Serialization as the specification words it *)

(** Every fragment of a call sequence with the mark of its category, the
    categories in the fixed order. *)
Definition serialize_marked (cs : list call) : string :=
  String.concat "" (values_of PElement cs) +:+
  String.concat "" ((fun v => "#" +:+ v) <$> values_of PId cs) +:+
  String.concat "" ((fun v => "." +:+ v) <$> values_of PClass cs) +:+
  String.concat "" ((fun v => "[" +:+ v +:+ "]") <$> values_of PAttr cs) +:+
  String.concat "" ((fun v => ":" +:+ v) <$> values_of PPseudoClass cs) +:+
  String.concat "" ((fun v => "::" +:+ v) <$> values_of PPseudoElement cs).

(** The same, except that an id or a pseudo-element whose name is the
    empty string is left out together with its mark. *)
Definition marked_unless_empty (mark v : string) : string :=
  if decide (v = "") then "" else mark +:+ v.

Definition serialize (cs : list call) : string :=
  String.concat "" (values_of PElement cs) +:+
  String.concat "" (marked_unless_empty "#" <$> values_of PId cs) +:+
  String.concat "" ((fun v => "." +:+ v) <$> values_of PClass cs) +:+
  String.concat "" ((fun v => "[" +:+ v +:+ "]") <$> values_of PAttr cs) +:+
  String.concat "" ((fun v => ":" +:+ v) <$> values_of PPseudoClass cs) +:+
  String.concat "" (marked_unless_empty "::" <$> values_of PPseudoElement cs).

(** ** Ordinary objects *)

(** An object is read through [Object.entries] or written property by
    property.  It is the list of its own enumerable string-keyed
    properties in property order: the keys that are array indices first,
    in ascending order, then the other keys in the order of their
    creation. *)

(** The value of a decimal digit. *)
Definition digit_value (c : Ascii.ascii) : option N :=
  let n := Stdlib.Strings.Ascii.N_of_ascii c in
  if ((48 <=? n) && (n <=? 57))%N then Some (n - 48)%N else None.

Fixpoint decimal_value (s : string) (acc : N) : option N :=
  match s with
  | EmptyString => Some acc
  | String c s' =>
      match digit_value c with
      | Some d => decimal_value s' (10 * acc + d)%N
      | None => None
      end
  end.

(** An array index: the decimal numeral, without a leading zero, of an
    integer from 0 to 2^32 - 2. *)
Definition array_index (key : string) : option N :=
  match key with
  | EmptyString => None
  | String c rest =>
      if (Stdlib.Strings.Ascii.N_of_ascii c =? 48)%N && negb (String.eqb rest "")
      then None
      else match decimal_value key 0 with
           | Some n => if (n <? 4294967295)%N then Some n else None
           | None => None
           end
  end.

(** Whether a new key [key] is listed before a key [k] the object has:
    an array index comes before a larger one and before every key that
    is none. *)
Definition comes_before (key k : string) : bool :=
  match array_index key, array_index k with
  | Some n, Some m => (n <? m)%N
  | Some _, None => true
  | None, _ => false
  end.

(** A key sequence in property order, each key once. *)
Fixpoint enumerated (keys : list string) : Prop :=
  match keys with
  | [] => True
  | k :: rest =>
      Forall (fun k' => comes_before k' k = false /\ k' <> k) rest /\
      enumerated rest
  end.

Section Objects.

Context {V : Type}.

(** The own property [key] of an object, [None] when it has none. *)
Fixpoint get_property (key : string) (obj : list (string * V)) : option V :=
  match obj with
  | [] => None
  | (k, v) :: obj' =>
      if decide (k = key) then Some v else get_property key obj'
  end.

(** Giving an ordinary object the own data property [key]: a property it
    has keeps its place, a new one takes its place in property order. *)
Fixpoint put_property (key : string) (value : V) (obj : list (string * V))
    : list (string * V) :=
  match obj with
  | [] => [(key, value)]
  | (k, v) :: obj' =>
      if decide (k = key) then (key, value) :: obj'
      else if comes_before key k then (key, value) :: (k, v) :: obj'
      else (k, v) :: put_property key value obj'
  end.

(** [obj[key] = value] on an object that inherits from [Object.prototype]
    and whose own properties are writable.  The key [__proto__] goes to
    the setter of [Object.prototype], which makes no own property: it
    ignores a primitive, and takes an object as the new prototype, which
    the list of own properties does not show (the keys assigned after it
    are those of a prototype without setters and read-only
    properties). *)
Definition assign_property (key : string) (value : V)
    (obj : list (string * V)) : list (string * V) :=
  if decide (key = "__proto__") then obj else put_property key value obj.


End Objects.

(** ** mergeObjects *)

Section MergeObjects.

(** An input object is read through [Object.entries] only: it is the list
    of its entries.  [result] is an ordinary object, [{}] at first, that
    inherits from [Object.prototype].  The values are of a type [V] on
    which [+] does not throw; [add] is [+] on them, [is_undefined] tells
    the value [undefined], and [inherited_plus key] is [Some plus] when
    [Object.prototype] has a property [key], [plus value] being what
    [Object.prototype[key] + value] is (the properties of
    [Object.prototype] are functions and objects, none is [undefined]). *)
Context {V : Type} (add : V -> V -> V) (is_undefined : V -> bool)
  (inherited_plus : string -> option (V -> V)).

(** [result[key]] is the own property when there is one, the property of
    [Object.prototype] otherwise.  In the [else] branch [result[key] +=
    value] reads it once more and assigns the sum. *)
Definition merge_entry (result : list (string * V)) (element : string * V)
    : list (string * V) :=
  let '(key, value) := element in
  match get_property key result with
  | Some old =>
      if is_undefined old then assign_property key value result
      else assign_property key (add old value) result
  | None =>
      match inherited_plus key with
      | Some plus => assign_property key (plus value) result
      | None => assign_property key value result
      end
  end.

Definition mergeObjects (objects : list (list (string * V)))
    : list (string * V) :=
  foldl (fun result object => foldl merge_entry result object) [] objects.

(** The values held for [key], over all inputs, in input order. *)
Definition key_values (key : string) (objects : list (list (string * V)))
    : list V :=
  objects ≫= (fun object => snd <$> filter (fun e : string * V => e.1 = key) object).

(** No value: no entry.  One value: that value.  Several: their sum, taken
    from the left. *)
Definition summed (vs : list V) : option V :=
  match vs with
  | [] => None
  | v :: vs' => Some (foldl add v vs')
  end.

(** What one more value for [key] does to the own property [key] of
    [result]. *)
Definition accumulate (key : string) (entry : option V) (value : V)
    : option V :=
  Some match entry with
       | Some old => if is_undefined old then value else add old value
       | None =>
           match inherited_plus key with
           | Some plus => plus value
           | None => value
           end
       end.

End MergeObjects.

(** An instance: strings as values.  [+] is concatenation, no string is
    [undefined], and [Object.prototype.toString + value] is the text of
    the function followed by the value. *)
Definition sample_inherited_plus (key : string) : option (string -> string) :=
  if String.eqb key "toString"
  then Some (String.append "function toString() { [native code] }")
  else None.

(** ** compareObjects *)

Section CompareObjects.

(** An object is the list [Object.entries] makes of it: its entries in
    enumeration order.  [strict_equal] is [===] on the values, so [!==]
    is its negation; on strings [!==] is inequality. *)
Context {V : Type} (strict_equal : V -> V -> bool).

(** The [for] loop, at index [i] with [steps] iterations left.  The two
    arrays have the same length when the loop runs, so both entries
    exist. *)
Fixpoint compare_loop (entries1 entries2 : list (string * V)) (i steps : nat)
    : bool :=
  match steps with
  | O => true
  | S steps' =>
      match entries1 !! i, entries2 !! i with
      | Some e1, Some e2 =>
          if bool_decide (e1.1 ≠ e2.1) || negb (strict_equal e1.2 e2.2)
          then false
          else compare_loop entries1 entries2 (S i) steps'
      | _, _ => false
      end
  end.

Definition compareObjects (obj1 obj2 : list (string * V)) : bool :=
  let entries1 := obj1 in
  let entries2 := obj2 in
  if bool_decide (length entries1 ≠ length entries2) then false
  else compare_loop entries1 entries2 0 (length entries1).

End CompareObjects.

(** ** sellTickets *)

Module Tickets.

(** [cashbox]: the number of 25 and of 50 bills held. *)
Record cashbox : Set := mk { c25 : Z; c50 : Z }.

(** One turn of the loop body; [None] is [return false]. *)
Definition serve (box : cashbox) (key : Z) : option cashbox :=
  box ← Some (if key =? 25 then {| c25 := c25 box + 1; c50 := c50 box |}
              else box);
  box ← (if key =? 50
         then if c25 box >? 0
              then Some {| c25 := c25 box - 1; c50 := c50 box + 1 |}
              else None
         else Some box);
  if key =? 100
  then if (c50 box >? 0) && (c25 box >? 0)
       then Some {| c25 := c25 box - 1; c50 := c50 box - 1 |}
       else if c25 box >? 2
            then Some {| c25 := c25 box - 3; c50 := c50 box |}
            else None
  else Some box.

Fixpoint loop (box : cashbox) (queue : list Z) : bool :=
  match queue with
  | [] => true
  | key :: rest =>
      match serve box key with
      | Some box' => loop box' rest
      | None => false
      end
  end.

Definition sellTickets (queue : list Z) : bool :=
  loop {| c25 := 0; c50 := 0 |} queue.

(** *** What selling to everyone means *)

(** A handful of bills: how many of 25, of 50 and of 100. *)
Record bills : Set := mkBills { n25 : nat; n50 : nat; n100 : nat }.

Definition value (b : bills) : Z :=
  25 * Z.of_nat (n25 b) + 50 * Z.of_nat (n50 b) + 100 * Z.of_nat (n100 b).

Definition plus (a b : bills) : bills :=
  {| n25 := n25 a + n25 b; n50 := n50 a + n50 b; n100 := n100 a + n100 b |}.

Definition one (bill : Z) : bills :=
  if bill =? 25 then mkBills 1 0 0
  else if bill =? 50 then mkBills 0 1 0
  else if bill =? 100 then mkBills 0 0 1
  else mkBills 0 0 0.

(** The seller takes the customer's bill and hands back [change], bills
    from the till worth the bill less the price of 25; [till'] is what
    is left. *)
Definition sells (till : bills) (bill : Z) (till' : bills) : Prop :=
  exists change : bills,
    value change = bill - 25 /\ plus till (one bill) = plus till' change.

(** There is a way to serve the whole queue from [till]. *)
Fixpoint servable (till : bills) (queue : list Z) : Prop :=
  match queue with
  | [] => True
  | bill :: rest => exists till', sells till bill till' /\ servable till' rest
  end.

End Tickets.

(** The bills a customer may pay with. *)
Definition bill_ok (bill : Z) : Prop := bill = 25 \/ bill = 50 \/ bill = 100.

(** The cashbox counts the 25 and 50 bills of the till. *)
Definition counts (box : Tickets.cashbox) (till : Tickets.bills) : Prop :=
  Tickets.c25 box = Z.of_nat (Tickets.n25 till) /\
  Tickets.c50 box = Z.of_nat (Tickets.n50 till).

(** The cashbox holds the same amount in 25 and 50 bills as the till, with
    at least as many 25 bills. *)
Definition dominates (box : Tickets.cashbox) (till : Tickets.bills) : Prop :=
  Tickets.c25 box + 2 * Tickets.c50 box =
    Z.of_nat (Tickets.n25 till) + 2 * Z.of_nat (Tickets.n50 till) /\
  Z.of_nat (Tickets.n25 till) <= Tickets.c25 box /\
  0 <= Tickets.c50 box.

(** The cashbox when the loop is through the queue, [None] when the loop
    has returned [false] before. *)
Fixpoint cashbox_after (box : Tickets.cashbox) (queue : list Z)
    : option Tickets.cashbox :=
  match queue with
  | [] => Some box
  | key :: rest =>
      match Tickets.serve box key with
      | Some box' => cashbox_after box' rest
      | None => None
      end
  end.

(** ** shallowCopy *)

Section ShallowCopy.

Context {V : Type}.

(** [Object.assign(target, source)]: the own enumerable properties of
    [source], in property order, are assigned to [target]. *)
Definition Object_assign (target source : list (string * V))
    : list (string * V) :=
  foldl (fun target e => assign_property e.1 e.2 target) target source.

Definition shallowCopy (obj : list (string * V)) : list (string * V) :=
  let target := [] in
  Object_assign target obj.

End ShallowCopy.

(** ** removeProperties and isEmptyObject *)

(** For [delete] and [Object.keys] an own property counts with two of its
    attributes: a property that is not configurable cannot be deleted,
    and one that is not enumerable is not listed. *)
Record property (V : Type) : Type := mkProperty {
  prop_key : string;
  prop_value : V;
  enumerable : bool;
  configurable : bool
}.

Arguments mkProperty {V} _ _ _ _.
Arguments prop_key {V} _.
Arguments prop_value {V} _.
Arguments enumerable {V} _.
Arguments configurable {V} _.

Section RemoveProperties.

Context {V : Type}.

(** [delete obj[key]]: the property goes when the object has it and it is
    configurable; otherwise nothing happens (the module is not in strict
    mode, so [delete] does not throw). *)
Definition delete_property (key : string) (obj : list (property V))
    : list (property V) :=
  filter (fun p => ~ (prop_key p = key /\ configurable p = true)) obj.

(** [result] is [obj] itself: the properties are deleted from the
    argument, which is also what is returned. *)
Definition removeProperties (obj : list (property V)) (keys : list string)
    : list (property V) :=
  let result := obj in
  foldl (fun result key => delete_property key result) result keys.

(** [Object.keys(obj)] *)
Definition Object_keys (obj : list (property V)) : list string :=
  prop_key <$> filter (fun p => enumerable p = true) obj.

Definition isEmptyObject (obj : list (property V)) : bool :=
  if bool_decide (length (Object_keys obj) = 0%nat) then true else false.

End RemoveProperties.

(** ** makeWord *)

(** [result[position] = char] on an array with holes, for a position that
    is an array index (below 2^32 - 1): a cell is [None] when it is a
    hole.  Writing at or past the length makes the array longer, with
    holes in between. *)
Definition array_set {A : Type} (i : nat) (x : A) (arr : list (option A))
    : list (option A) :=
  if decide (i < length arr)%nat then <[i := Some x]> arr
  else arr ++ replicate (i - length arr) None ++ [Some x].

(** [result.join('')]: a hole is joined as the empty string. *)
Definition join_empty (arr : list (option string)) : string :=
  String.concat "" (default "" <$> arr).

(** The array [result] when the two [forEach] are done. *)
Definition makeWord_result (lettersObject : list (string * list nat))
    : list (option string) :=
  foldl (fun result element =>
           let '(char, positions) := element in
           foldl (fun result position => array_set position char result)
             result positions)
    [] lettersObject.

Definition makeWord (lettersObject : list (string * list nat)) : string :=
  join_empty (makeWord_result lettersObject).

(** The key of the last entry that lists position [i]. *)
Definition last_writer (i : nat) (lettersObject : list (string * list nat))
    : option string :=
  fst <$> last (filter (fun e : string * list nat => i ∈ e.2) lettersObject).

(** ** group *)

Section MapEntries.

Context {V : Type}.

(** [map.set(key, value)]: the entry of a key the map has keeps its
    place, a new entry goes last. *)
Fixpoint set_property (key : string) (value : V) (obj : list (string * V))
    : list (string * V) :=
  match obj with
  | [] => [(key, value)]
  | (k, v) :: obj' =>
      if decide (k = key) then (key, value) :: obj'
      else (k, v) :: set_property key value obj'
  end.

End MapEntries.

Section Group.

(** The elements are of any type; the two selectors return strings. *)
Context {A : Type} (keySelector valueSelector : A -> string).

(** A [Map] with string keys: its entries in insertion order. *)
Definition Map_has (key : string) (map : list (string * list string)) : bool :=
  bool_decide (key ∈ map.*1).

Definition Map_get (key : string) (map : list (string * list string))
    : option (list string) :=
  get_property key map.

Definition Map_set (key : string) (value : list string)
    (map : list (string * list string)) : list (string * list string) :=
  set_property key value map.

(** The body of the [forEach].  [currentValues.push] changes the array
    that the map holds, and [map.set] then stores that same array. *)
Definition group_step (map : list (string * list string)) (element : A)
    : list (string * list string) :=
  let mapKey := keySelector element in
  let mapAdditionalValue := valueSelector element in
  if Map_has mapKey map
  then match Map_get mapKey map with
       | Some currentValues =>
           Map_set mapKey (currentValues ++ [mapAdditionalValue]) map
       | None => map
       end
  else Map_set mapKey [mapAdditionalValue] map.

Definition group (array : list A) : list (string * list string) :=
  foldl group_step [] array.

End Group.

(** The distinct members of a list, each at its first occurrence. *)
Fixpoint first_occurrences (l : list string) : list string :=
  match l with
  | [] => []
  | x :: l' => x :: filter (fun y => y <> x) (first_occurrences l')
  end.

(** ** sortCitiesArray *)

Record GeoEntity : Set := mkGeo { country : string; city : string }.

Section SortCities.

(** [a.localeCompare(b)] depends on the locale of the host; it is a
    parameter. *)
Context (localeCompare : string -> string -> Z).

(** The arrow function given to [sort]. *)
Definition compareCities (a b : GeoEntity) : Z :=
  let countryCompare := localeCompare (country a) (country b) in
  if negb (countryCompare =? 0) then countryCompare
  else localeCompare (city a) (city b).

(** [Array.prototype.sort] is a stable sort: with a consistent comparator
    the result is the one of inserting every element, from the last to
    the first, before the first element it does not come after. *)
Fixpoint sort_insert (x : GeoEntity) (sorted : list GeoEntity) : list GeoEntity :=
  match sorted with
  | [] => [x]
  | y :: sorted' =>
      if compareCities x y <=? 0 then x :: y :: sorted'
      else y :: sort_insert x sorted'
  end.

(** The array is sorted in place and returned. *)
Definition sortCitiesArray (arr : list GeoEntity) : list GeoEntity :=
  foldr sort_insert [] arr.

End SortCities.

(** A comparator [sort] can rely on: its sign flips with its arguments and
    "not after" is transitive. *)
Definition consistent {T : Type} (cmp : T -> T -> Z) : Prop :=
  (forall a b, Z.sgn (cmp a b) = - Z.sgn (cmp b a)) /\
  (forall a b c, cmp a b <= 0 -> cmp b c <= 0 -> cmp a c <= 0).

(** Comparison by length, a consistent comparator on strings. *)
Definition compare_length (a b : string) : Z :=
  Z.of_nat (String.length a) - Z.of_nat (String.length b).

(** ** Legal call sequences *)

(** The ranks of the categories never go down, and element, id and
    pseudo-element are each called at most once. *)
Definition legal (cs : list call) : Prop :=
  StronglySorted Z.le (Selector.orderMap <$> parts_of cs) /\
  forall p, single p = true -> (length (values_of p cs) <= 1)%nat.

(** * Properties of the selector builder *)

Lemma truthy_nonempty (v : string) : truthy v = true <-> v <> "".
Proof.
  unfold truthy. destruct (String.eqb_spec v ""); simpl; split; congruence.
Qed.

(** A fragment-adding call, by cases on its two guards. *)
Lemma invoke_eq (c : call) (s : Selector.t) :
  invoke c s =
    if occupied c.1 s then (s, inl DuplicateSelectorPartError)
    else if out_of_order c.1 s then (s, inl InvalidSelectorOrderError)
    else (Selector.push_order c.1 s,
          inr (extend c (Selector.push_order c.1 s))).
Proof.
  destruct c as [p v], s as [e i cl ats pc pe o].
  unfold invoke, occupied, out_of_order, extend.
  destruct p; cbn [fst snd];
    unfold Selector.element, Selector.id, Selector.class, Selector.attr,
      Selector.pseudoClass, Selector.pseudoElement, Selector.checkOrder,
      Selector.ensureSingle, Selector.clone, Selector.bind, Selector.gets,
      Selector.modify, Selector.ret, Selector.throw;
    cbn [Selector.elementName Selector.idName Selector.pseudoElementName
         Selector.order];
    try destruct e; try destruct i; try destruct pe; cbn;
    destruct (last o) as [l|]; try reflexivity;
    destruct (Selector.orderMap l >? _); reflexivity.
Qed.

Lemma facade_invoke (c : call) : facade c = snd (invoke c Selector.new).
Proof. destruct c as [[] v]; reflexivity. Qed.

(** A lineage is a chain of calls on [new Selector()]. *)
Lemma lineage_chain (first : call) (rest : list call) :
  lineage first rest = chain Selector.new (first :: rest).
Proof.
  unfold lineage. rewrite facade_invoke. cbn [chain].
  destruct (invoke first Selector.new) as [this' [e|s]]; reflexivity.
Qed.

(** A call that returns: what it leaves in the receiver and what the copy
    holds. *)
Lemma invoke_success (c : call) (s s' r : Selector.t) :
  invoke c s = (s', inr r) ->
  occupied c.1 s = false /\ out_of_order c.1 s = false /\
  s' = Selector.push_order c.1 s /\ r = extend c s'.
Proof.
  rewrite invoke_eq.
  destruct (occupied c.1 s); [discriminate|].
  destruct (out_of_order c.1 s); [discriminate|].
  intros [= <- <-]. auto.
Qed.

Lemma invoke_failure (c : call) (s s' : Selector.t) (e : error) :
  invoke c s = (s', inl e) ->
  s' = s /\
  (e = DuplicateSelectorPartError /\ occupied c.1 s = true \/
   e = InvalidSelectorOrderError /\ occupied c.1 s = false /\
     out_of_order c.1 s = true).
Proof.
  rewrite invoke_eq.
  destruct (occupied c.1 s); [intros [= <- <-]; auto|].
  destruct (out_of_order c.1 s); [intros [= <- <-]; auto|discriminate].
Qed.

Lemma values_of_cons (p : part) (c : call) (cs : list call) :
  values_of p (c :: cs) =
    (if decide (c.1 = p) then [c.2] else []) ++ values_of p cs.
Proof.
  unfold values_of. rewrite filter_cons. destruct (decide (c.1 = p)); reflexivity.
Qed.

Lemma values_of_nonempty (p : part) (cs : list call) :
  p ∈ parts_of cs <-> values_of p cs <> [].
Proof.
  induction cs as [|c cs IH]; [split; [inversion 1|done]|].
  rewrite values_of_cons. unfold parts_of in *. rewrite fmap_cons, elem_of_cons.
  destruct (decide (c.1 = p)) as [->|Hne]; simpl.
  - split; [done|auto].
  - rewrite <- IH. split; [intros [?|?]; congruence|auto].
Qed.

(** One returning call adds its argument to the field of its category and
    its category to the order; the other fields are those of the receiver. *)
Lemma invoke_field (c : call) (s s' r : Selector.t) (p : part) :
  invoke c s = (s', inr r) ->
  field p r = field p s ++ (if decide (c.1 = p) then [c.2] else []) /\
  Selector.order r = Selector.order s ++ [c.1].
Proof.
  intros H. apply invoke_success in H as (Hocc & _ & -> & ->).
  destruct c as [q v], s as [e i cl ats pc pe o]. cbn [fst snd] in *.
  split; [|destruct q; reflexivity].
  destruct q, p; cbn in Hocc |- *;
    rewrite ?app_nil_r; try reflexivity;
    apply bool_decide_eq_false in Hocc;
    match goal with
    | H : ~ is_Some ?x |- _ => destruct x; [exfalso; eauto|reflexivity]
    end.
Qed.

Lemma chain_field (cs : list call) (s0 s : Selector.t) (p : part) :
  chain s0 cs = inr s ->
  field p s = field p s0 ++ values_of p cs /\
  Selector.order s = Selector.order s0 ++ parts_of cs.
Proof.
  revert s0. induction cs as [|c cs IH]; intros s0; cbn [chain].
  - intros [= ->]. unfold values_of, parts_of. cbn. by rewrite !app_nil_r.
  - destruct (invoke c s0) as [this' [e|s1]] eqn:Hc; [discriminate|].
    intros H. apply IH in H as [Hf Ho].
    apply (invoke_field _ _ _ _ p) in Hc as [Hf1 Ho1].
    rewrite Hf, Hf1, Ho, Ho1, values_of_cons.
    unfold parts_of. rewrite fmap_cons, <- !app_assoc. done.
Qed.

Lemma lineage_field (first : call) (rest : list call) (s : Selector.t) (p : part) :
  lineage first rest = inr s ->
  field p s = values_of p (first :: rest) /\
  Selector.order s = parts_of (first :: rest).
Proof.
  rewrite lineage_chain. intros H. apply (chain_field _ _ _ p) in H as [Hf Ho].
  rewrite Hf, Ho. by destruct p.
Qed.

Lemma occupied_field (p : part) (s : Selector.t) :
  occupied p s = single p && bool_decide (field p s <> []).
Proof.
  destruct s as [e i cl ats pc pe o].
  destruct p; cbn; try reflexivity;
    match goal with |- context [is_Some ?x] => destruct x end; reflexivity.
Qed.

Lemma occupied_lineage (first : call) (rest : list call) (s : Selector.t) (p : part) :
  lineage first rest = inr s ->
  occupied p s = single p && bool_decide (p ∈ parts_of (first :: rest)).
Proof.
  intros H. apply (lineage_field _ _ _ p) in H as [Hf _].
  rewrite occupied_field, Hf. f_equal.
  apply bool_decide_ext. symmetry. apply values_of_nonempty.
Qed.

Lemma stringify_fields (s : Selector.t) :
  Selector.stringify s =
    String.concat "" (field PElement s) +:+
    String.concat "" (marked_unless_empty "#" <$> field PId s) +:+
    String.concat "" ((fun v => "." +:+ v) <$> field PClass s) +:+
    String.concat "" ((fun v => "[" +:+ v +:+ "]") <$> field PAttr s) +:+
    String.concat "" ((fun v => ":" +:+ v) <$> field PPseudoClass s) +:+
    String.concat "" (marked_unless_empty "::" <$> field PPseudoElement s).
Proof.
  assert (Hor : forall x, Selector.or_empty x = String.concat "" (option_list x)).
  { intros [v|]; [|reflexivity]. cbn.
    destruct (truthy v) eqn:Hv; [reflexivity|].
    destruct (decide (v = "")) as [->|Hne]; [reflexivity|].
    apply truthy_nonempty in Hne. congruence. }
  assert (Hif : forall x mark,
    Selector.if_truthy x (fun v => mark +:+ v) =
    String.concat "" (marked_unless_empty mark <$> option_list x)).
  { intros [v|] mark; [|reflexivity]. cbn. unfold marked_unless_empty.
    destruct (decide (v = "")) as [->|Hne]; [reflexivity|].
    apply truthy_nonempty in Hne. by rewrite Hne. }
  unfold Selector.stringify. rewrite Hor, !Hif. reflexivity.
Qed.

Lemma stringify_push_order (p : part) (s : Selector.t) :
  Selector.stringify (Selector.push_order p s) = Selector.stringify s.
Proof. reflexivity. Qed.

(** C1: a fragment-adding call that returns does change its receiver: the
    category is pushed on the receiver's own [order] before the copy is
    made.  On [s = element('div')] both [s.class('x')] and
    [s.pseudoClass('hover')] are valid, but once [s.pseudoClass('hover')]
    has been made, [s.order] ends in [pseudoClass] and [s.class('x')]
    throws the ordering error. *)
Theorem receiver_order_is_pushed :
  let s := Selector.mk (Some "div") None [] [] [] None [PElement] in
  let s' := Selector.mk (Some "div") None [] [] [] None [PElement; PPseudoClass] in
  cssSelectorBuilder.element "div" = inr s /\
  snd (Selector.class "x" s) =
    inr (Selector.mk (Some "div") None ["x"] [] [] None [PElement; PClass]) /\
  Selector.pseudoClass "hover" s =
    (s', inr (Selector.mk (Some "div") None [] [] ["hover"] None
                [PElement; PPseudoClass])) /\
  s' <> s /\
  Selector.class "x" s' = (s', inl InvalidSelectorOrderError).
Proof. cbv zeta. repeat split; try reflexivity. discriminate. Qed.

(** C2, as stated, fails: after [element('a').id('b')], the call
    [element('c')] has a lower rank than the preceding [id], and the error
    it raises is the duplicate one, not the ordering one. *)
Lemma lower_rank_can_raise_duplicate :
  ~ (forall (first : call) (rest : list call) (s : Selector.t) (q p : part)
       (v : string),
       lineage first rest = inr s ->
       last (parts_of (first :: rest)) = Some q ->
       Selector.orderMap p < Selector.orderMap q ->
       snd (invoke (p, v) s) = inl InvalidSelectorOrderError).
Proof.
  intros H.
  specialize (H (PElement, "a") [(PId, "b")] _ PId PElement "c"
                eq_refl eq_refl eq_refl).
  discriminate H.
Qed.

(** C2, amended: in a lineage whose last fragment has category [q], a call
    of category [p] with a strictly lower rank throws, and leaves the
    receiver as it was: the ordering error, unless [p] is element, id or
    pseudo-element and the lineage already has one, in which case the
    duplicate error comes first.  A call of equal or higher rank passes
    [checkOrder] and never throws the ordering error.
    [id('x').element('div')] throws the ordering error. *)
Theorem rank_order_in_lineage (first : call) (rest : list call)
    (s : Selector.t) (q p : part) (v : string) :
  lineage first rest = inr s ->
  last (parts_of (first :: rest)) = Some q ->
  (Selector.orderMap p < Selector.orderMap q ->
     invoke (p, v) s =
       (s, inl (if single p && bool_decide (p ∈ parts_of (first :: rest))
                then DuplicateSelectorPartError
                else InvalidSelectorOrderError))) /\
  (Selector.orderMap q <= Selector.orderMap p ->
     Selector.checkOrder p s = (Selector.push_order p s, inr tt) /\
     snd (invoke (p, v) s) <> inl InvalidSelectorOrderError) /\
  lineage (PId, "x") [(PElement, "div")] = inl InvalidSelectorOrderError.
Proof.
  intros Hs Hq.
  pose proof (occupied_lineage _ _ _ p Hs) as Hocc.
  apply (lineage_field _ _ _ p) in Hs as [_ Ho].
  assert (Hout : out_of_order p s = (Selector.orderMap q >? Selector.orderMap p)).
  { unfold out_of_order. by rewrite Ho, Hq. }
  split; [|split; [|reflexivity]].
  - intros Hlt. rewrite invoke_eq. cbn [fst]. rewrite Hocc, Hout.
    destruct (single p && _); [reflexivity|].
    by rewrite (proj2 (Z.gtb_lt _ _) Hlt).
  - intros Hle.
    assert (Hgt : (Selector.orderMap q >? Selector.orderMap p) = false).
    { rewrite Z.gtb_ltb. apply Z.ltb_ge. exact Hle. }
    split.
    + unfold Selector.checkOrder, Selector.bind, Selector.gets.
      rewrite Ho, Hq, Hgt. reflexivity.
    + rewrite invoke_eq. cbn [fst]. rewrite Hout, Hgt.
      destruct (occupied p s); discriminate.
Qed.

(** Instances: after [element('a').id('b')], [element('c')] is a
    duplicate and [class('k')] is in order; after [class('k')], [id('x')]
    is out of order. *)
Lemma rank_order_in_lineage_witness :
  let s := Selector.mk (Some "a") (Some "b") [] [] [] None [PElement; PId] in
  lineage (PElement, "a") [(PId, "b")] = inr s /\
  invoke (PElement, "c") s = (s, inl DuplicateSelectorPartError) /\
  invoke (PId, "x") (Selector.mk None None ["k"] [] [] None [PClass]) =
    (Selector.mk None None ["k"] [] [] None [PClass],
     inl InvalidSelectorOrderError) /\
  snd (invoke (PClass, "k") s) <> inl InvalidSelectorOrderError.
Proof.
  cbv zeta. split; [reflexivity|]. split; [|split].
  - apply (rank_order_in_lineage (PElement, "a") [(PId, "b")] _ PId PElement "c"
             eq_refl eq_refl). reflexivity.
  - apply (rank_order_in_lineage (PClass, "k") [] _ PClass PId "x"
             eq_refl eq_refl). reflexivity.
  - apply (rank_order_in_lineage (PElement, "a") [(PId, "b")] _ PId PClass "k"
             eq_refl eq_refl). discriminate.
Defined.

(** C3: in a lineage that already has an element (an id, a
    pseudo-element), another [element] ([id], [pseudoElement]) call throws
    the duplicate error, whatever the order is; the receiver is left as it
    was, so neither the push of [checkOrder] nor the copy has happened. *)
Theorem second_single_part_is_duplicate (first : call) (rest : list call)
    (s : Selector.t) (p : part) (v : string) :
  single p = true ->
  lineage first rest = inr s ->
  p ∈ parts_of (first :: rest) ->
  invoke (p, v) s = (s, inl DuplicateSelectorPartError).
Proof.
  intros Hp Hs Hin. rewrite invoke_eq. cbn [fst].
  rewrite (occupied_lineage _ _ _ p Hs), Hp.
  by rewrite (bool_decide_eq_true_2 _ Hin).
Qed.

(** An instance: Scenario 3, [element('div').id('main').class('x')]
    followed by [element('span')]. *)
Lemma second_single_part_is_duplicate_witness :
  let s := Selector.mk (Some "div") (Some "main") ["x"] [] [] None
             [PElement; PId; PClass] in
  lineage (PElement, "div") [(PId, "main"); (PClass, "x")] = inr s /\
  Selector.element "span" s = (s, inl DuplicateSelectorPartError).
Proof.
  cbv zeta. split; [reflexivity|].
  apply (second_single_part_is_duplicate
           (PElement, "div") [(PId, "main"); (PClass, "x")] _ PElement "span"
           eq_refl eq_refl).
  unfold parts_of. cbn. apply list_elem_of_here.
Defined.

(** C4, as stated, fails: [id('')] is a legal call sequence, the id is set
    (a second [id] call is a duplicate), and it is serialized as the empty
    string, without its ['#']. *)
Lemma empty_id_loses_its_mark :
  ~ (forall (first : call) (rest : list call) (s : Selector.t),
       lineage first rest = inr s ->
       Selector.stringify s = serialize_marked (first :: rest)).
Proof.
  intros H. specialize (H (PId, "") [] _ eq_refl). discriminate H.
Qed.

(** C4, amended: the selector built by a legal call sequence is serialized
    as the element name bare, the id after ['#'], every class after ['.'],
    every attribute between ['['] and [']'], every pseudo-class after
    [':'] and the pseudo-element after ['::'], each category in call order
    and the categories in this fixed order, where an id or a pseudo-element
    whose name is the empty string gives nothing.
    [id('main').class('container').class('editable')] gives
    ["#main.container.editable"]. *)
Theorem stringify_lineage (first : call) (rest : list call) (s : Selector.t) :
  lineage first rest = inr s ->
  Selector.stringify s = serialize (first :: rest) /\
  (exists s1,
     lineage (PId, "main") [(PClass, "container"); (PClass, "editable")] =
       inr s1 /\
     Selector.stringify s1 = "#main.container.editable").
Proof.
  intros Hs. split; [|eexists; split; reflexivity].
  rewrite stringify_fields. unfold serialize.
  by rewrite !(proj1 (lineage_field _ _ _ _ Hs)).
Qed.

(** An instance: Scenario 2, with the quotes of the attribute value left
    out. *)
Lemma stringify_lineage_witness :
  let s := Selector.mk (Some "a") None [] ["href$=.png"] ["focus"] None
             [PElement; PAttr; PPseudoClass] in
  lineage (PElement, "a") [(PAttr, "href$=.png"); (PPseudoClass, "focus")] =
    inr s /\
  Selector.stringify s = "a[href$=.png]:focus".
Proof.
  cbv zeta. split; [reflexivity|].
  apply (stringify_lineage
           (PElement, "a") [(PAttr, "href$=.png"); (PPseudoClass, "focus")] _
           eq_refl).
Defined.

Lemma length_append (s1 s2 : string) :
  String.length (s1 +:+ s2) = (String.length s1 + String.length s2)%nat.
Proof. induction s1 as [|a s1 IH]; simpl; [reflexivity|by f_equal]. Qed.

(** C5: [combine(a, c, b).stringify()] is [a.stringify()], a space, [c], a
    space, [b.stringify()], for every [c]; with [c] the space, the children
    are three spaces apart, two of them from the template. *)
Theorem combine_stringify (a b : SelectorLike) (c : string) :
  stringify (cssSelectorBuilder.combine a c b) =
    stringify a +:+ " " +:+ c +:+ " " +:+ stringify b /\
  stringify (cssSelectorBuilder.combine a " " b) =
    stringify a +:+ "   " +:+ stringify b /\
  String.length (stringify (cssSelectorBuilder.combine a c b)) =
    (String.length (stringify a) + String.length c +
     String.length (stringify b) + 2)%nat.
Proof.
  split; [reflexivity|]. split; [reflexivity|].
  cbn [stringify cssSelectorBuilder.combine].
  rewrite !length_append. cbn. lia.
Qed.

(** C6: a fragment-adding call that throws, with either error, leaves every
    field of the receiver, [order] included, as it was. *)
Theorem failed_call_is_atomic (c : call) (s s' : Selector.t) (e : error) :
  invoke c s = (s', inl e) -> s' = s.
Proof. intros H. by apply invoke_failure in H as [-> _]. Qed.

(** Instances: on [id('x')], [element('div')] is out of order and
    [id('y')] is a duplicate. *)
Lemma failed_call_is_atomic_witness :
  let s := Selector.mk None (Some "x") [] [] [] None [PId] in
  snd (Selector.element "div" s) = inl InvalidSelectorOrderError /\
  snd (Selector.id "y" s) = inl DuplicateSelectorPartError /\
  fst (Selector.element "div" s) = s /\
  fst (Selector.id "y" s) = s.
Proof.
  cbv zeta. split; [reflexivity|]. split; [reflexivity|]. split.
  - apply (failed_call_is_atomic (PElement, "div") _ _ InvalidSelectorOrderError).
    reflexivity.
  - apply (failed_call_is_atomic (PId, "y") _ _ DuplicateSelectorPartError).
    reflexivity.
Defined.

(** C7: after a fragment-adding call that returns, the receiver is
    serialized as before the call. *)
Theorem receiver_stringify_unchanged (c : call) (s s' r : Selector.t) :
  invoke c s = (s', inr r) ->
  Selector.stringify s' = Selector.stringify s.
Proof.
  intros H. apply invoke_success in H as (_ & _ & -> & _).
  apply stringify_push_order.
Qed.

(** An instance: [class('x')] on [element('div')]. *)
Lemma receiver_stringify_unchanged_witness :
  let s := Selector.mk (Some "div") None [] [] [] None [PElement] in
  fst (Selector.class "x" s) =
    Selector.mk (Some "div") None [] [] [] None [PElement; PClass] /\
  Selector.stringify (fst (Selector.class "x" s)) = Selector.stringify s.
Proof.
  cbv zeta. split; [reflexivity|].
  apply (receiver_stringify_unchanged (PClass, "x")
           (Selector.mk (Some "div") None [] [] [] None [PElement])
           (Selector.mk (Some "div") None [] [] [] None [PElement; PClass])
           (Selector.mk (Some "div") None ["x"] [] [] None [PElement; PClass])).
  reflexivity.
Defined.

(** * Properties of ordinary objects *)

Section ObjectsProperties.

Context {V : Type}.

Lemma get_put_property (key k : string) (value : V) (obj : list (string * V)) :
  get_property k (put_property key value obj) =
    if decide (key = k) then Some value else get_property k obj.
Proof.
  induction obj as [|[k' v] obj IH]; cbn.
  - by destruct (decide (key = k)).
  - destruct (decide (k' = key)) as [->|Hne]; cbn.
    + by destruct (decide (key = k)).
    + destruct (comes_before key k'); cbn.
      * by destruct (decide (key = k)).
      * destruct (decide (k' = k)) as [->|Hne'].
        -- rewrite decide_False; [done|congruence].
        -- exact IH.
Qed.

Lemma get_assign_property (key k : string) (value : V)
    (obj : list (string * V)) :
  k <> "__proto__" ->
  get_property k (assign_property key value obj) =
    if decide (key = k) then Some value else get_property k obj.
Proof.
  intros Hk. unfold assign_property.
  destruct (decide (key = "__proto__")) as [->|Hne].
  - rewrite decide_False; [done|congruence].
  - apply get_put_property.
Qed.

(** A new key that comes before none of the keys of the object goes
    last. *)
Lemma put_property_last (key : string) (value : V) (obj : list (string * V)) :
  Forall (fun k => comes_before key k = false /\ key <> k) obj.*1 ->
  put_property key value obj = obj ++ [(key, value)].
Proof.
  induction obj as [|[k v] obj IH]; [done|]. cbn.
  intros [[Hb Hne] Hrest]%Forall_cons.
  rewrite decide_False by congruence. rewrite Hb. by rewrite IH.
Qed.

Lemma enumerated_app_cons (keys1 keys2 : list string) (key : string) :
  enumerated (keys1 ++ key :: keys2) ->
  Forall (fun k => comes_before key k = false /\ key <> k) keys1 /\
  enumerated ((keys1 ++ [key]) ++ keys2).
Proof.
  rewrite <- app_assoc. cbn. intros H. split; [|done].
  induction keys1 as [|k keys1 IH]; [constructor|].
  cbn in H. destruct H as [Hk H]. constructor; [|by apply IH].
  apply Forall_app in Hk as [_ Hk]. by apply Forall_cons in Hk as [? _].
Qed.



End ObjectsProperties.

(** * Properties of mergeObjects *)

Section MergeObjectsProperties.

Context {V : Type} (add : V -> V -> V) (is_undefined : V -> bool)
  (inherited_plus : string -> option (V -> V)).

Lemma merge_entry_get (result : list (string * V)) (key k : string)
    (value : V) :
  k <> "__proto__" ->
  get_property k (merge_entry add is_undefined inherited_plus result (key, value)) =
    if decide (key = k)
    then accumulate add is_undefined inherited_plus k (get_property k result) value
    else get_property k result.
Proof.
  intros Hk. unfold merge_entry, accumulate.
  destruct (decide (key = k)) as [->|Hne].
  - destruct (get_property k result) as [old|].
    + destruct (is_undefined old);
        rewrite get_assign_property by done; by rewrite decide_True.
    + destruct (inherited_plus k);
        rewrite get_assign_property by done; by rewrite decide_True.
  - destruct (get_property key result) as [old|].
    + destruct (is_undefined old);
        rewrite get_assign_property by done; by rewrite decide_False.
    + destruct (inherited_plus key);
        rewrite get_assign_property by done; by rewrite decide_False.
Qed.

Lemma merge_entries_get (object : list (string * V))
    (result : list (string * V)) (k : string) :
  k <> "__proto__" ->
  get_property k (foldl (merge_entry add is_undefined inherited_plus)
                    result object) =
    foldl (accumulate add is_undefined inherited_plus k)
      (get_property k result)
      (snd <$> filter (fun e : string * V => e.1 = k) object).
Proof.
  intros Hk. revert result.
  induction object as [|[key value] object IH]; intros result; [done|].
  cbn [foldl]. rewrite IH, merge_entry_get, filter_cons by done. cbn [fst].
  destruct (decide (key = k)); reflexivity.
Qed.

Lemma merge_objects_get (objects : list (list (string * V)))
    (result : list (string * V)) (k : string) :
  k <> "__proto__" ->
  get_property k
    (foldl (fun result object =>
              foldl (merge_entry add is_undefined inherited_plus) result object)
       result objects) =
    foldl (accumulate add is_undefined inherited_plus k)
      (get_property k result) (key_values k objects).
Proof.
  intros Hk. revert result.
  induction objects as [|object objects IH]; intros result; [done|].
  cbn [foldl]. rewrite IH, merge_entries_get by done.
  unfold key_values. by rewrite bind_cons, foldl_app.
Qed.

(** The own keys: when nothing is inherited for the key and no sum or
    value is [undefined], the property is the sum of the values. *)
Lemma accumulate_summed (k : string) (vs : list V) :
  inherited_plus k = None ->
  (forall a b, is_undefined (add a b) = false) ->
  Forall (fun v => is_undefined v = false) vs ->
  foldl (accumulate add is_undefined inherited_plus k) None vs = summed add vs.
Proof.
  intros Hk Hadd Hvs. destruct vs as [|v vs]; [done|].
  apply Forall_cons in Hvs as [Hv _].
  cbn. unfold accumulate at 2. rewrite Hk.
  revert v Hv. induction vs as [|w vs IH]; intros v Hv; [done|].
  cbn. unfold accumulate at 2. rewrite Hv. apply IH, Hadd.
Qed.

(** C8: the code does not do what the claim says for a key that
    [Object.prototype] has, such as [toString]: for the first value of
    the key, [result[key] === undefined] is false, and the value is added
    to the inherited property; so [mergeObjects([{toString: v}])] holds
    [Object.prototype.toString + v] and not [v].  And a key [__proto__]
    of an input is not a key of the result. *)
Theorem mergeObjects_adds_to_inherited (key : string) (value : V)
    (plus : V -> V) :
  inherited_plus key = Some plus ->
  key <> "__proto__" ->
  mergeObjects add is_undefined inherited_plus [[(key, value)]] =
    [(key, plus value)] /\
  mergeObjects add is_undefined inherited_plus [[("__proto__", value)]] = [].
Proof.
  intros Hkey Hne. unfold mergeObjects. cbn. rewrite Hkey.
  unfold assign_property. rewrite decide_False by done. cbn.
  split; [reflexivity|]. by destruct (inherited_plus "__proto__").
Qed.

End MergeObjectsProperties.

(** An instance: [mergeObjects([{toString: '1'}])]. *)
Lemma mergeObjects_adds_to_inherited_witness :
  mergeObjects String.append (fun _ => false) sample_inherited_plus
    [[("toString", "1")]] =
    [("toString", "function toString() { [native code] }1")].
Proof.
  apply (mergeObjects_adds_to_inherited String.append (fun _ => false)
           sample_inherited_plus "toString" "1"
           (String.append "function toString() { [native code] }")).
  - reflexivity.
  - discriminate.
Defined.

(** * Properties of compareObjects *)

Section CompareObjectsProperties.

Context {V : Type} (strict_equal : V -> V -> bool).

(** The loop from index [i] returns [true] when the entries agree, key by
    key and value by value, at every index from [i] on. *)
Lemma compare_loop_true (entries1 entries2 : list (string * V)) (steps i : nat) :
  (i + steps)%nat = length entries1 ->
  length entries1 = length entries2 ->
  compare_loop strict_equal entries1 entries2 i steps = true <->
  forall j e1 e2, (i <= j)%nat ->
    entries1 !! j = Some e1 -> entries2 !! j = Some e2 ->
    e1.1 = e2.1 /\ strict_equal e1.2 e2.2 = true.
Proof.
  revert i. induction steps as [|steps IH]; intros i Hi Hlen.
  - cbn. split; [|done]. intros _ j e1 e2 Hj H1 _.
    apply lookup_lt_Some in H1. lia.
  - assert (H1 : is_Some (entries1 !! i)) by (apply lookup_lt_is_Some; lia).
    assert (H2 : is_Some (entries2 !! i)) by (apply lookup_lt_is_Some; lia).
    destruct H1 as [[k1 v1] H1], H2 as [[k2 v2] H2].
    cbn [compare_loop]. rewrite H1, H2. cbn [fst snd].
    destruct (decide (k1 = k2)) as [->|Hk].
    + rewrite bool_decide_eq_false_2 by tauto. cbn.
      destruct (strict_equal v1 v2) eqn:Hv; cbn.
      * rewrite IH by lia. split.
        -- intros Hall j e1 e2 Hj Hj1 Hj2.
           destruct (decide (j = i)) as [->|Hne].
           ++ rewrite H1 in Hj1. rewrite H2 in Hj2.
              injection Hj1 as <-. injection Hj2 as <-. done.
           ++ apply (Hall j); [lia|done..].
        -- intros Hall j e1 e2 Hj. apply Hall. lia.
      * split; [done|]. intros Hall.
        destruct (Hall i _ _ ltac:(lia) H1 H2) as [_ Hv']. cbn in Hv'.
        congruence.
    + rewrite bool_decide_eq_true_2 by done. cbn. split; [done|].
      intros Hall. destruct (Hall i _ _ ltac:(lia) H1 H2) as [Hk' _]. done.
Qed.

Lemma compareObjects_true (obj1 obj2 : list (string * V)) :
  compareObjects strict_equal obj1 obj2 = true <->
  length obj1 = length obj2 /\
  forall i e1 e2, obj1 !! i = Some e1 -> obj2 !! i = Some e2 ->
    e1.1 = e2.1 /\ strict_equal e1.2 e2.2 = true.
Proof.
  unfold compareObjects.
  destruct (decide (length obj1 = length obj2)) as [Hlen|Hlen].
  - rewrite bool_decide_eq_false_2 by tauto.
    rewrite compare_loop_true by done. split.
    + intros H. split; [done|]. intros i e1 e2. apply H. lia.
    + intros [_ H] j e1 e2 _. apply H.
  - rewrite bool_decide_eq_true_2 by done. split; [done|tauto].
Qed.


(** When [===] is equality on the values, the function decides whether
    the two entry lists are the same. *)
Lemma compareObjects_eq (obj1 obj2 : list (string * V)) :
  (forall v w, strict_equal v w = true <-> v = w) ->
  compareObjects strict_equal obj1 obj2 = true <-> obj1 = obj2.
Proof.
  intros Heq. rewrite compareObjects_true. split.
  - intros [Hlen H]. apply list_eq. intros i.
    destruct (obj1 !! i) as [[k1 v1]|] eqn:H1,
             (obj2 !! i) as [[k2 v2]|] eqn:H2.
    + destruct (H i _ _ H1 H2) as [Hk Hv]. cbn in Hk, Hv.
      apply Heq in Hv. by subst.
    + apply lookup_lt_Some in H1. apply lookup_ge_None in H2. lia.
    + apply lookup_lt_Some in H2. apply lookup_ge_None in H1. lia.
    + done.
  - intros ->. split; [done|]. intros i e1 e2 H1 H2.
    rewrite H1 in H2. injection H2 as <-. split; [done|by apply Heq].
Qed.

End CompareObjectsProperties.




(** * Properties of sellTickets *)

(** The loop body on the three bills. *)
Lemma serve_25 (box : Tickets.cashbox) :
  Tickets.serve box 25 =
    Some {| Tickets.c25 := Tickets.c25 box + 1; Tickets.c50 := Tickets.c50 box |}.
Proof. reflexivity. Qed.

Lemma serve_50 (box : Tickets.cashbox) :
  Tickets.serve box 50 =
    if Tickets.c25 box >? 0
    then Some {| Tickets.c25 := Tickets.c25 box - 1;
                 Tickets.c50 := Tickets.c50 box + 1 |}
    else None.
Proof. cbn. destruct (Tickets.c25 box >? 0); reflexivity. Qed.

Lemma serve_100 (box : Tickets.cashbox) :
  Tickets.serve box 100 =
    if (Tickets.c50 box >? 0) && (Tickets.c25 box >? 0)
    then Some {| Tickets.c25 := Tickets.c25 box - 1;
                 Tickets.c50 := Tickets.c50 box - 1 |}
    else if Tickets.c25 box >? 2
         then Some {| Tickets.c25 := Tickets.c25 box - 3;
                      Tickets.c50 := Tickets.c50 box |}
         else None.
Proof. reflexivity. Qed.

Lemma sells_counts (till till' : Tickets.bills) (bill : Z) :
  Tickets.sells till bill till' <->
  exists a b c : nat,
    25 * Z.of_nat a + 50 * Z.of_nat b + 100 * Z.of_nat c = bill - 25 /\
    (Tickets.n25 till + Tickets.n25 (Tickets.one bill) = Tickets.n25 till' + a)%nat /\
    (Tickets.n50 till + Tickets.n50 (Tickets.one bill) = Tickets.n50 till' + b)%nat /\
    (Tickets.n100 till + Tickets.n100 (Tickets.one bill) = Tickets.n100 till' + c)%nat.
Proof.
  unfold Tickets.sells, Tickets.value, Tickets.plus. split.
  - intros ([a b c] & Hv & Heq). exists a, b, c. cbn in *.
    injection Heq as H1 H2 H3. auto.
  - intros (a & b & c & Hv & H1 & H2 & H3).
    exists (Tickets.mkBills a b c). cbn. split; [done|]. congruence.
Qed.

Ltac case_gtb :=
  repeat match goal with
  | |- context [?a >? ?b] => destruct (Z.gtb_spec a b); cbn [andb]
  | H : context [?a >? ?b] |- _ => destruct (Z.gtb_spec a b); cbn [andb] in H
  end.

(** The choices of the loop are a way to serve the queue. *)
Lemma loop_servable (queue : list Z) (box : Tickets.cashbox) (till : Tickets.bills) :
  Forall bill_ok queue ->
  counts box till ->
  Tickets.loop box queue = true ->
  Tickets.servable till queue.
Proof.
  intros Hq. revert box till.
  induction Hq as [|bill rest Hbill _ IH]; intros box till [H25 H50]; [done|].
  cbn [Tickets.loop Tickets.servable].
  destruct till as [n25 n50 n100]. cbn in H25, H50.
  destruct Hbill as [->|[->| ->]].
  - rewrite serve_25. intros Hloop.
    exists (Tickets.mkBills (S n25) n50 n100). split.
    + apply sells_counts. exists 0%nat, 0%nat, 0%nat. cbn. lia.
    + eapply IH; [|exact Hloop]. split; cbn; lia.
  - rewrite serve_50. case_gtb; [|done]. intros Hloop.
    exists (Tickets.mkBills (n25 - 1) (S n50) n100). split.
    + apply sells_counts. exists 1%nat, 0%nat, 0%nat. cbn. lia.
    + eapply IH; [|exact Hloop]. split; cbn; lia.
  - rewrite serve_100. case_gtb; try done; intros Hloop.
    + exists (Tickets.mkBills (n25 - 1) (n50 - 1) (S n100)). split.
      * apply sells_counts. exists 1%nat, 1%nat, 0%nat. cbn. lia.
      * eapply IH; [|exact Hloop]. split; cbn; lia.
    + exists (Tickets.mkBills (n25 - 3) n50 (S n100)). split.
      * apply sells_counts. exists 3%nat, 0%nat, 0%nat. cbn. lia.
      * eapply IH; [|exact Hloop]. split; cbn; lia.
    + exists (Tickets.mkBills (n25 - 3) n50 (S n100)). split.
      * apply sells_counts. exists 3%nat, 0%nat, 0%nat. cbn. lia.
      * eapply IH; [|exact Hloop]. split; cbn; lia.
Qed.

(** Whatever way the queue is served, the loop gets through it: its
    cashbox keeps dominating the till of that way. *)
Lemma servable_loop (queue : list Z) (box : Tickets.cashbox) (till : Tickets.bills) :
  Forall bill_ok queue ->
  dominates box till ->
  Tickets.servable till queue ->
  Tickets.loop box queue = true.
Proof.
  intros Hq. revert box till.
  induction Hq as [|bill rest Hbill _ IH]; intros box till (Hsum & H25 & H50);
    [done|].
  cbn [Tickets.loop Tickets.servable].
  intros (till' & Hsells & Hrest).
  apply sells_counts in Hsells as (a & b & c & Hv & Ha & Hb & Hc).
  destruct till as [n25 n50 n100], till' as [m25 m50 m100].
  cbn [Tickets.n25 Tickets.n50 Tickets.n100] in *.
  destruct Hbill as [->|[->| ->]]; cbn in Ha, Hb, Hc.
  - rewrite serve_25. eapply IH; [|exact Hrest]. split; cbn; lia.
  - rewrite serve_50. case_gtb; [|lia].
    eapply IH; [|exact Hrest]. split; cbn; lia.
  - rewrite serve_100. case_gtb; try lia;
      (eapply IH; [|exact Hrest]); split; cbn; lia.
Qed.

(** C10: on a queue of 25, 50 and 100 bills, [sellTickets] returns [true]
    exactly when there is a way to give every customer the change from
    the bills taken so far; so its choice for a 100 bill, a 50 and a 25
    before three 25s, loses no queue that can be served. *)
Theorem sellTickets_complete (queue : list Z) :
  Forall bill_ok queue ->
  (Tickets.sellTickets queue = true <->
   Tickets.servable (Tickets.mkBills 0 0 0) queue).
Proof.
  intros Hq. unfold Tickets.sellTickets. split.
  - apply loop_servable; [done|]. split; reflexivity.
  - apply servable_loop; [done|]. repeat split; cbn; lia.
Qed.

(** An instance: the queue [25, 25, 50, 100]. *)
Lemma sellTickets_complete_witness :
  Forall bill_ok [25; 25; 50; 100] /\
  Tickets.servable (Tickets.mkBills 0 0 0) [25; 25; 50; 100].
Proof.
  assert (Hq : Forall bill_ok [25; 25; 50; 100]).
  { repeat constructor; unfold bill_ok; lia. }
  split; [exact Hq|].
  apply (sellTickets_complete [25; 25; 50; 100] Hq). reflexivity.
Defined.


(** * More on the selector builder *)

Lemma chain_snoc (cs : list call) (c : call) (s0 : Selector.t) :
  chain s0 (cs ++ [c]) =
    match chain s0 cs with
    | inr s => snd (invoke c s)
    | inl e => inl e
    end.
Proof.
  revert s0. induction cs as [|c' cs IH]; intros s0; cbn [chain app].
  - destruct (invoke c s0) as [this' [e|s1]]; reflexivity.
  - destruct (invoke c' s0) as [this' [e|s1]]; [reflexivity|apply IH].
Qed.

Lemma values_of_snoc (p : part) (cs : list call) (c : call) :
  values_of p (cs ++ [c]) =
    values_of p cs ++ (if decide (c.1 = p) then [c.2] else []).
Proof.
  unfold values_of. rewrite filter_app, fmap_app. f_equal.
  rewrite filter_cons, filter_nil. destruct (decide (c.1 = p)); reflexivity.
Qed.

Lemma sorted_snoc_last (l : list Z) (x : Z) :
  StronglySorted Z.le (l ++ [x]) <->
  StronglySorted Z.le l /\ forall y, last l = Some y -> y <= x.
Proof.
  rewrite StronglySorted_app. split.
  - intros (Hle & Hl & _). split; [done|]. intros y Hy.
    apply Hle; [|apply list_elem_of_here]. by apply last_Some_elem_of.
  - intros [Hl Hlast]. split; [|split; [done|repeat constructor]].
    intros x1 x2 Hx1 ->%list_elem_of_singleton.
    destruct (last l) as [y|] eqn:Hy.
    + apply last_Some in Hy as [l' ->].
      apply StronglySorted_app in Hl as (Hle & _ & _).
      apply elem_of_app in Hx1 as [Hx1| ->%list_elem_of_singleton].
      * etrans; [apply (Hle x1 y Hx1); apply list_elem_of_here|].
        by apply Hlast.
      * by apply Hlast.
    + apply last_None in Hy as ->. inversion Hx1.
Qed.

(** The two guards of a call on the result of a chain from [new Selector()],
    in terms of the calls made. *)
Lemma guards_after_chain (cs : list call) (s : Selector.t) (p : part) :
  chain Selector.new cs = inr s ->
  occupied p s = single p && bool_decide (values_of p cs <> []) /\
  out_of_order p s =
    match last (parts_of cs) with
    | Some l => Selector.orderMap l >? Selector.orderMap p
    | None => false
    end.
Proof.
  intros H. apply (chain_field _ _ _ p) in H as [Hf Ho].
  rewrite occupied_field, Hf. unfold out_of_order. rewrite Ho.
  split; [|reflexivity]. by destruct p.
Qed.

Lemma chain_new_legal (cs : list call) :
  (exists s, chain Selector.new cs = inr s) <-> legal cs.
Proof.
  induction cs as [|c cs IH] using rev_ind.
  - split; [|by eexists]. intros _. split; [constructor|]. intros p _. cbn. lia.
  - rewrite chain_snoc. unfold legal, parts_of in *.
    rewrite !fmap_app. cbn [fmap list_fmap]. rewrite sorted_snoc_last.
    split.
    + intros [s' Hs'].
      destruct (chain Selector.new cs) as [e|s] eqn:Hs; [discriminate|].
      destruct (proj1 IH (ex_intro _ s eq_refl)) as [Hsorted Hsingle].
      destruct (invoke c s) as [this' [e|r]] eqn:Hc; [discriminate|].
      apply invoke_success in Hc as (Hocc & Hout & _ & _).
      split; [split; [done|]|].
      * intros y Hy. rewrite (proj2 (guards_after_chain _ _ c.1 Hs)) in Hout.
        rewrite fmap_last in Hy. unfold parts_of in Hout.
        destruct (last (fst <$> cs)) as [l|]; [|discriminate].
        injection Hy as <-. rewrite Z.gtb_ltb in Hout.
        by apply Z.ltb_ge in Hout.
      * intros p Hp. rewrite values_of_snoc, length_app.
        destruct (decide (c.1 = p)) as [<-|Hne]; cbn.
        -- rewrite (proj1 (guards_after_chain _ _ c.1 Hs)), Hp in Hocc.
           cbn in Hocc. apply bool_decide_eq_false in Hocc.
           destruct (values_of c.1 cs); [cbn; lia|]. by destruct Hocc.
        -- specialize (Hsingle p Hp). lia.
    + intros [[Hsorted Hlast] Hsingle].
      destruct (proj2 IH) as [s Hs].
      { split; [done|]. intros p Hp. specialize (Hsingle p Hp).
        rewrite values_of_snoc, length_app in Hsingle. lia. }
      rewrite Hs, invoke_eq.
      destruct (guards_after_chain _ _ c.1 Hs) as [-> ->].
      assert (Hfree : single c.1 && bool_decide (values_of c.1 cs <> []) = false).
      { destruct (single c.1) eqn:Hp; [|done]. cbn.
        apply bool_decide_eq_false. intros Hne.
        specialize (Hsingle _ Hp). rewrite values_of_snoc, length_app in Hsingle.
        rewrite decide_True in Hsingle by done.
        destruct (values_of c.1 cs); [done|cbn in Hsingle; lia]. }
      rewrite Hfree. unfold parts_of.
      destruct (last (fst <$> cs)) as [l|] eqn:Hl; [|by eexists].
      specialize (Hlast (Selector.orderMap l)).
      rewrite fmap_last, Hl in Hlast. specialize (Hlast eq_refl).
      rewrite Z.gtb_ltb, (proj2 (Z.ltb_ge _ _) Hlast). by eexists.
Qed.

Lemma field_push_order (q p : part) (s : Selector.t) :
  field q (Selector.push_order p s) = field q s.
Proof. by destruct q. Qed.

Lemma occupied_push_order (q p : part) (s : Selector.t) :
  occupied q (Selector.push_order p s) = occupied q s.
Proof. by destruct q. Qed.

(** X1: a call sequence started at the facade returns a Selector exactly
    when the ranks of its categories never go down and element, id and
    pseudo-element are each called at most once. *)
Theorem lineage_returns_iff_legal (first : call) (rest : list call) :
  (exists s, lineage first rest = inr s) <-> legal (first :: rest).
Proof. rewrite lineage_chain. apply chain_new_legal. Qed.

(** X2: the Selector a lineage returns records the calls made: [order] is
    the sequence of their categories, and the field of every category
    holds the arguments given for it, in call order. *)
Theorem lineage_records_calls (first : call) (rest : list call) (s : Selector.t) :
  lineage first rest = inr s ->
  Selector.order s = parts_of (first :: rest) /\
  forall p, field p s = values_of p (first :: rest).
Proof.
  intros H. split; [apply (lineage_field _ _ _ PElement H)|].
  intros p. apply (lineage_field _ _ _ p H).
Qed.

(** An instance: [element('a').class('b').class('c')]. *)
Lemma lineage_records_calls_witness :
  exists s,
    lineage (PElement, "a") [(PClass, "b"); (PClass, "c")] = inr s /\
    Selector.order s = [PElement; PClass; PClass] /\
    Selector.classes s = ["b"; "c"].
Proof.
  eexists. split; [reflexivity|].
  destruct (lineage_records_calls
              (PElement, "a") [(PClass, "b"); (PClass, "c")] _ eq_refl)
    as [Ho Hf].
  split; [exact Ho|exact (Hf PClass)].
Defined.

(** X3: the copy a call returns holds what the receiver held, its own
    argument added last in the field of its category, and its category
    added last in [order]; the fragment fields of the receiver stay as
    they were. *)
Theorem returned_copy_extends_receiver (c : call) (s s' r : Selector.t) :
  invoke c s = (s', inr r) ->
  (forall q, field q r =
             field q s ++ (if decide (c.1 = q) then [c.2] else [])) /\
  Selector.order r = Selector.order s ++ [c.1] /\
  (forall q, field q s' = field q s).
Proof.
  intros H. split; [|split].
  - intros q. apply (invoke_field _ _ _ _ q H).
  - apply (invoke_field _ _ _ _ PElement H).
  - intros q. apply invoke_success in H as (_ & _ & -> & _).
    apply field_push_order.
Qed.

(** An instance: [attr('x')] on a Selector with one class. *)
Lemma returned_copy_extends_receiver_witness :
  let s := Selector.mk None None ["k"] [] [] None [PClass] in
  exists s' r,
    invoke (PAttr, "x") s = (s', inr r) /\
    Selector.classes r = ["k"] /\ Selector.attributes r = ["x"] /\
    Selector.order r = [PClass; PAttr] /\
    Selector.classes s' = ["k"] /\ Selector.attributes s' = [].
Proof.
  cbv zeta. eexists _, _. split; [reflexivity|].
  destruct (returned_copy_extends_receiver (PAttr, "x")
              (Selector.mk None None ["k"] [] [] None [PClass]) _ _ eq_refl)
    as (Hr & Ho & Hs).
  split; [exact (Hr PClass)|]. split; [exact (Hr PAttr)|].
  split; [exact Ho|]. split; [exact (Hs PClass)|exact (Hs PAttr)].
Defined.

(** X4: once a call on a receiver has returned, a further call on that
    same receiver is checked against the category of the call before it,
    not against the last fragment of the receiver: a lower rank throws the
    ordering error; otherwise the call returns a copy that has the
    fragments of the receiver and its own, none of the earlier call, and
    an [order] that has both categories. *)
Theorem second_call_on_receiver (c : call) (s s' r : Selector.t)
    (p : part) (v : string) :
  invoke c s = (s', inr r) ->
  occupied p s = false ->
  (Selector.orderMap p < Selector.orderMap c.1 ->
     invoke (p, v) s' = (s', inl InvalidSelectorOrderError)) /\
  (Selector.orderMap c.1 <= Selector.orderMap p ->
     exists r',
       invoke (p, v) s' = (Selector.push_order p s', inr r') /\
       (forall q, field q r' =
                  field q s ++ (if decide (p = q) then [v] else [])) /\
       Selector.order r' = Selector.order s ++ [c.1; p]).
Proof.
  intros H Hocc. apply invoke_success in H as (_ & _ & -> & _).
  assert (Hout : out_of_order p (Selector.push_order c.1 s) =
                 (Selector.orderMap c.1 >? Selector.orderMap p)).
  { unfold out_of_order. cbn [Selector.order Selector.push_order].
    by rewrite last_snoc. }
  split.
  - intros Hlt. rewrite invoke_eq. cbn [fst].
    rewrite occupied_push_order, Hocc, Hout.
    by rewrite (proj2 (Z.gtb_lt _ _) Hlt).
  - intros Hle.
    assert (Hc : invoke (p, v) (Selector.push_order c.1 s) =
                 (Selector.push_order p (Selector.push_order c.1 s),
                  inr (extend (p, v)
                         (Selector.push_order p (Selector.push_order c.1 s))))).
    { rewrite invoke_eq. cbn [fst].
      rewrite occupied_push_order, Hocc, Hout, Z.gtb_ltb.
      by rewrite (proj2 (Z.ltb_ge _ _) Hle). }
    eexists. split; [exact Hc|]. split.
    + intros q. destruct (invoke_field _ _ _ _ q Hc) as [-> _].
      by rewrite field_push_order.
    + destruct (invoke_field _ _ _ _ PElement Hc) as [_ ->].
      cbn [Selector.order Selector.push_order fst]. by rewrite <- app_assoc.
Qed.

(** Instances: after [s.pseudoClass('hover')] on [s = element('div')],
    [s.class('x')] throws and [s.pseudoElement('after')] returns
    [div::after] with the order [element, pseudoClass, pseudoElement]. *)
Lemma second_call_on_receiver_witness :
  let s := Selector.mk (Some "div") None [] [] [] None [PElement] in
  let s' := fst (Selector.pseudoClass "hover" s) in
  invoke (PClass, "x") s' = (s', inl InvalidSelectorOrderError) /\
  exists r',
    invoke (PPseudoElement, "after") s' =
      (Selector.push_order PPseudoElement s', inr r') /\
    Selector.pseudoClasses r' = [] /\
    Selector.order r' = [PElement; PPseudoClass; PPseudoElement].
Proof.
  cbv zeta. split.
  - apply (second_call_on_receiver (PPseudoClass, "hover")
             (Selector.mk (Some "div") None [] [] [] None [PElement]) _ _
             PClass "x" eq_refl eq_refl).
    reflexivity.
  - destruct (second_call_on_receiver (PPseudoClass, "hover")
                (Selector.mk (Some "div") None [] [] [] None [PElement]) _ _
                PPseudoElement "after" eq_refl eq_refl) as [_ H].
    destruct (H ltac:(discriminate)) as (r' & Hc & Hf & Ho).
    exists r'. split; [exact Hc|]. split; [exact (Hf PPseudoClass)|exact Ho].
Defined.

Lemma append_assoc (s1 s2 s3 : string) :
  (s1 +:+ s2) +:+ s3 = s1 +:+ s2 +:+ s3.
Proof.
  induction s1 as [|a s1 IH]; [reflexivity|].
  exact (f_equal (String a) IH).
Qed.

(** X5: the string of a combined selector does not keep the shape of the
    tree: combining to the left and combining to the right give the same
    string. *)
Theorem combine_flattens (a b d : SelectorLike) (c1 c2 : string) :
  stringify
    (cssSelectorBuilder.combine (cssSelectorBuilder.combine a c1 b) c2 d) =
  stringify
    (cssSelectorBuilder.combine a c1 (cssSelectorBuilder.combine b c2 d)).
Proof.
  cbn [stringify cssSelectorBuilder.combine]. by rewrite !append_assoc.
Qed.

(** X6: the six constructors of the facade never throw: each returns a
    Selector with the one fragment, whose [order] is the one category. *)
Theorem facade_returns (c : call) :
  exists s,
    facade c = inr s /\
    Selector.order s = [c.1] /\
    (forall p, field p s = if decide (c.1 = p) then [c.2] else []).
Proof.
  assert (H : exists s, lineage c [] = inr s).
  { rewrite lineage_chain. apply chain_new_legal. destruct c as [p v]. split.
    - repeat constructor.
    - intros q _. rewrite values_of_cons. cbn.
      destruct (decide (p = q)); cbn; lia. }
  destruct H as [s H]. exists s.
  split.
  { unfold lineage in H. destruct (facade c) as [e|s0]; [discriminate|].
    cbn in H. congruence. }
  destruct (lineage_field _ _ _ PElement H) as [_ Ho]. split; [exact Ho|].
  intros p. destruct (lineage_field _ _ _ p H) as [-> _].
  rewrite values_of_cons. cbn. by rewrite app_nil_r.
Qed.

(** * Properties of shallowCopy, removeProperties and isEmptyObject *)

Lemma filter_all {A : Type} (P : A -> Prop) `{!forall x, Decision (P x)}
    (l : list A) :
  (forall x, x ∈ l -> P x) -> filter P l = l.
Proof.
  induction l as [|x l IH]; [done|]. intros Hall.
  rewrite filter_cons_True by (apply Hall; apply list_elem_of_here).
  f_equal. apply IH. intros y Hy. apply Hall. by apply list_elem_of_further.
Qed.

Section ShallowCopyProperties.

Context {V : Type}.

Lemma assign_property_put (key : string) (value : V) (obj : list (string * V)) :
  key <> "__proto__" -> assign_property key value obj = put_property key value obj.
Proof. intros Hk. unfold assign_property. by rewrite decide_False. Qed.

Lemma Object_assign_enumerated (source target : list (string * V)) :
  enumerated (target.*1 ++ source.*1) ->
  "__proto__" ∉ source.*1 ->
  Object_assign target source = target ++ source.
Proof.
  revert target. induction source as [|[k v] source IH]; intros target Hen Hp.
  - cbn. by rewrite app_nil_r.
  - cbn [Object_assign foldl fst snd]. cbn in Hen, Hp.
    apply not_elem_of_cons in Hp as [Hk Hp].
    apply enumerated_app_cons in Hen as [Hlast Hen].
    rewrite assign_property_put by congruence.
    rewrite put_property_last by done.
    fold (Object_assign (target ++ [(k, v)]) source).
    rewrite IH; [by rewrite <- app_assoc| |done].
    by rewrite fmap_app.
Qed.

(** X7: for an object that has no own key [__proto__], the shallow copy
    has the entries of the object, in the same order, and
    [compareObjects] finds the two equal when every value is strictly
    equal to itself.  An own key [__proto__] is not copied. *)
Theorem shallowCopy_equal (strict_equal : V -> V -> bool)
    (obj : list (string * V)) :
  enumerated obj.*1 ->
  "__proto__" ∉ obj.*1 ->
  shallowCopy obj = obj /\
  (Forall (fun e => strict_equal e.2 e.2 = true) obj ->
   compareObjects strict_equal (shallowCopy obj) obj = true) /\
  (forall v : V, shallowCopy [("__proto__", v)] = []).
Proof.
  intros Hen Hp.
  assert (H : shallowCopy obj = obj)
    by (unfold shallowCopy; by rewrite Object_assign_enumerated).
  split; [exact H|]. split; [|reflexivity].
  intros Hself. rewrite H. apply compareObjects_true. split; [done|].
  intros i e1 e2 H1 H2. rewrite H1 in H2. injection H2 as <-.
  split; [done|]. rewrite Forall_forall in Hself. apply Hself.
  by apply list_elem_of_lookup_2 in H1.
Qed.

End ShallowCopyProperties.

(** An instance: [{a: true, b: false}]. *)
Lemma shallowCopy_equal_witness :
  shallowCopy [("a", true); ("b", false)] = [("a", true); ("b", false)] /\
  compareObjects Bool.eqb (shallowCopy [("a", true); ("b", false)])
    [("a", true); ("b", false)] = true.
Proof.
  assert (Hen : enumerated [("a", true); ("b", false)].*1).
  { cbn. repeat split; try done. repeat constructor; done. }
  assert (Hp : "__proto__" ∉ [("a", true); ("b", false)].*1)
    by (apply (bool_decide_unpack _); reflexivity).
  destruct (shallowCopy_equal Bool.eqb [("a", true); ("b", false)] Hen Hp)
    as (H1 & H2 & _).
  split; [exact H1|]. apply H2. repeat constructor.
Defined.

Section RemovePropertiesProperties.

Context {V : Type}.

Lemma removeProperties_filter (keys : list string) (obj : list (property V)) :
  removeProperties obj keys =
    filter (fun p => prop_key p ∉ keys \/ configurable p = false) obj.
Proof.
  unfold removeProperties. revert obj.
  induction keys as [|k keys IH]; intros obj; cbn [foldl].
  - symmetry. apply filter_all. intros p _. left. inversion 1.
  - rewrite IH. unfold delete_property. rewrite list_filter_filter.
    apply list_filter_iff. intros p. rewrite not_elem_of_cons.
    destruct (configurable p), (decide (prop_key p = k));
      intuition congruence.
Qed.

(** X8: [removeProperties] leaves the own properties whose key is not
    listed and those that are not configurable, in their order, with
    their values and attributes; the others are gone. *)
Theorem removeProperties_keeps_unlisted (obj : list (property V))
    (keys : list string) (p : property V) :
  removeProperties obj keys =
    filter (fun p => prop_key p ∉ keys \/ configurable p = false) obj /\
  (p ∈ removeProperties obj keys <->
   p ∈ obj /\ (prop_key p ∈ keys -> configurable p = false)).
Proof.
  split; [apply removeProperties_filter|].
  rewrite removeProperties_filter, list_elem_of_filter.
  destruct (decide (prop_key p ∈ keys)); tauto.
Qed.

(** X9: listing keys that the object does not have changes nothing, and
    removing the same keys once more changes nothing either. *)
Theorem removeProperties_absent (obj : list (property V)) (keys : list string) :
  (forall k, k ∈ keys -> k ∉ prop_key <$> obj) ->
  removeProperties obj keys = obj /\
  forall obj' : list (property V),
    removeProperties (removeProperties obj' keys) keys =
    removeProperties obj' keys.
Proof.
  intros Habs. split.
  - rewrite removeProperties_filter. apply filter_all.
    intros p Hin. left. intros Hk. apply (Habs _ Hk).
    apply list_elem_of_fmap. by exists p.
  - intros obj'. rewrite !removeProperties_filter, list_filter_filter.
    apply list_filter_iff. tauto.
Qed.

(** X10: the object is empty after [removeProperties] exactly when each
    of its enumerable properties was listed and is configurable. *)
Theorem isEmptyObject_after_removeProperties (obj : list (property V))
    (keys : list string) :
  isEmptyObject (removeProperties obj keys) = true <->
  forall p, p ∈ obj -> enumerable p = true ->
    prop_key p ∈ keys /\ configurable p = true.
Proof.
  unfold isEmptyObject, Object_keys.
  rewrite removeProperties_filter, length_fmap, list_filter_filter.
  destruct (bool_decide_reflect
              (length (filter (fun p : property V =>
                         enumerable p = true /\
                         (prop_key p ∉ keys \/ configurable p = false))
                         obj) = 0%nat)) as [Hlen|Hlen].
  - split; [intros _|done]. apply nil_length_inv in Hlen.
    intros p Hin Hen.
    destruct (decide (prop_key p ∈ keys)) as [Hk|Hk],
             (configurable p) eqn:Hc; try done; exfalso;
      (eapply filter_nil_not_elem_of; [exact Hlen| |exact Hin]); cbn; tauto.
  - split; [done|]. intros Hall. destruct Hlen.
    destruct (filter _ obj) as [|p l] eqn:Hf; [done|].
    assert (Hin : p ∈ filter (fun p : property V =>
                    enumerable p = true /\
                    (prop_key p ∉ keys \/ configurable p = false)) obj)
      by (rewrite Hf; apply list_elem_of_here).
    apply list_elem_of_filter in Hin as [[Hen Hkeep] Hin].
    destruct (Hall p Hin Hen) as [Hk Hc].
    destruct Hkeep as [?|?]; [done|congruence].
Qed.

End RemovePropertiesProperties.

(** An instance: the keys [d] and [e] on [{a: 1, b: 2, c: 3}]. *)
Lemma removeProperties_absent_witness :
  removeProperties
    [mkProperty "a" 1 true true; mkProperty "b" 2 true true;
     mkProperty "c" 3 true true] ["d"; "e"] =
    [mkProperty "a" 1 true true; mkProperty "b" 2 true true;
     mkProperty "c" 3 true true].
Proof.
  apply (removeProperties_absent
           [mkProperty "a" 1 true true; mkProperty "b" 2 true true;
            mkProperty "c" 3 true true] ["d"; "e"]).
  intros k Hk. apply (bool_decide_unpack _).
  apply elem_of_cons in Hk as [->|Hk]; [reflexivity|].
  apply list_elem_of_singleton in Hk as ->. reflexivity.
Defined.

(** * More on mergeObjects *)

Section MergeObjectsMore.

Context {V : Type} (add : V -> V -> V) (is_undefined : V -> bool)
  (inherited_plus : string -> option (V -> V)).

Lemma mergeObjects_get_summed (objects : list (list (string * V)))
    (k : string) :
  inherited_plus k = None ->
  k <> "__proto__" ->
  (forall a b, is_undefined (add a b) = false) ->
  Forall (fun v => is_undefined v = false) (key_values k objects) ->
  get_property k (mergeObjects add is_undefined inherited_plus objects) =
    summed add (key_values k objects).
Proof.
  intros Hk Hne Hadd Hvs. unfold mergeObjects.
  rewrite merge_objects_get by done. cbn. by apply accumulate_summed.
Qed.

Lemma foldl_add_assoc (a w : V) (ws : list V) :
  (forall x y z, add x (add y z) = add (add x y) z) ->
  foldl add (add a w) ws = add a (foldl add w ws).
Proof.
  intros Hassoc. revert a w. induction ws as [|x ws IH]; intros a w; [done|].
  cbn. by rewrite !IH, Hassoc.
Qed.

Lemma summed_app (l1 l2 : list V) :
  (forall x y z, add x (add y z) = add (add x y) z) ->
  summed add (l1 ++ l2) =
    union_with (fun a b => Some (add a b)) (summed add l1) (summed add l2).
Proof.
  intros Hassoc. destruct l1 as [|v vs]; [by destruct l2|].
  destruct l2 as [|w ws]; [by rewrite app_nil_r|].
  cbn. rewrite foldl_app. cbn. by rewrite foldl_add_assoc.
Qed.

(** X12: for a key that [Object.prototype] does not have, when none of
    the values given for it is [undefined] (and no sum is), the result
    holds the one value the inputs have for the key, or the sum of the
    values they have for it, added up in input order; it has no such
    property when no input has the key. *)
Theorem mergeObjects_sums_own_keys (objects : list (list (string * V)))
    (k : string) :
  inherited_plus k = None ->
  k <> "__proto__" ->
  (forall a b, is_undefined (add a b) = false) ->
  Forall (fun v => is_undefined v = false) (key_values k objects) ->
  get_property k (mergeObjects add is_undefined inherited_plus objects) =
    match key_values k objects with
    | [] => None
    | v :: vs => Some (foldl add v vs)
    end.
Proof. apply mergeObjects_get_summed. Qed.

(** X11: under the same conditions, when [+] is associative on the
    values, merging a sequence in two batches and adding the two
    properties of the key up gives what merging the whole sequence
    gives. *)
Theorem mergeObjects_batches (xs ys : list (list (string * V))) (k : string) :
  inherited_plus k = None ->
  k <> "__proto__" ->
  (forall a b, is_undefined (add a b) = false) ->
  Forall (fun v => is_undefined v = false) (key_values k (xs ++ ys)) ->
  (forall x y z, add x (add y z) = add (add x y) z) ->
  get_property k (mergeObjects add is_undefined inherited_plus (xs ++ ys)) =
    union_with (fun a b => Some (add a b))
      (get_property k (mergeObjects add is_undefined inherited_plus xs))
      (get_property k (mergeObjects add is_undefined inherited_plus ys)).
Proof.
  intros Hk Hne Hadd Hvs Hassoc.
  assert (Happ : key_values k (xs ++ ys) = key_values k xs ++ key_values k ys)
    by (unfold key_values; by rewrite bind_app).
  rewrite Happ in Hvs. apply Forall_app in Hvs as [Hx Hy].
  rewrite !mergeObjects_get_summed by (try rewrite Happ; try apply Forall_app; done).
  rewrite Happ. by apply summed_app.
Qed.

End MergeObjectsMore.

(** An instance: strings, the key [a] of [{a: 'x'}] followed by
    [{a: 'y', b: 'z'}] and [{a: 'w'}]. *)
Lemma mergeObjects_batches_witness :
  get_property "a"
    (mergeObjects String.append (fun _ => false) sample_inherited_plus
       ([[("a", "x")]] ++ [[("a", "y"); ("b", "z")]; [("a", "w")]])) =
  union_with (fun a b => Some (a +:+ b))
    (get_property "a"
       (mergeObjects String.append (fun _ => false) sample_inherited_plus
          [[("a", "x")]]))
    (get_property "a"
       (mergeObjects String.append (fun _ => false) sample_inherited_plus
          [[("a", "y"); ("b", "z")]; [("a", "w")]])).
Proof.
  apply (mergeObjects_batches String.append (fun _ => false)
           sample_inherited_plus [[("a", "x")]]
           [[("a", "y"); ("b", "z")]; [("a", "w")]] "a").
  - reflexivity.
  - discriminate.
  - reflexivity.
  - repeat constructor.
  - intros x y z. symmetry. apply append_assoc.
Defined.

(** An instance: strings, the key [a] of [{a: 'x'}, {a: 'y', b: 'z'}]. *)
Lemma mergeObjects_sums_own_keys_witness :
  get_property "a"
    (mergeObjects String.append (fun _ => false) sample_inherited_plus
       [[("a", "x")]; [("a", "y"); ("b", "z")]]) = Some "xy".
Proof.
  apply (mergeObjects_sums_own_keys String.append (fun _ => false)
           sample_inherited_plus [[("a", "x")]; [("a", "y"); ("b", "z")]] "a").
  - reflexivity.
  - discriminate.
  - reflexivity.
  - repeat constructor.
Defined.

(** * Properties of makeWord *)

Lemma array_set_length {A : Type} (i : nat) (x : A) (arr : list (option A)) :
  length (array_set i x arr) = (length arr `max` S i)%nat.
Proof.
  unfold array_set. destruct (decide (i < length arr)%nat).
  - rewrite length_insert. lia.
  - rewrite !length_app, length_replicate. cbn. lia.
Qed.

(** A cell read after a write: the written cell holds the value, every
    other cell is as before, a hole or a cell past the end reading as
    [None]. *)
Lemma array_set_lookup {A : Type} (i j : nat) (x : A) (arr : list (option A)) :
  mjoin (array_set i x arr !! j) =
    if decide (i = j) then Some x else mjoin (arr !! j).
Proof.
  unfold array_set. destruct (decide (i < length arr)%nat) as [Hlt|Hge].
  - destruct (decide (i = j)) as [<-|Hne].
    + by rewrite list_lookup_insert_eq.
    + by rewrite list_lookup_insert_ne.
  - destruct (decide (j < length arr)%nat) as [Hj|Hj].
    + rewrite lookup_app_l by done. rewrite decide_False by lia. done.
    + rewrite lookup_app_r by lia.
      rewrite (lookup_ge_None_2 arr j) by lia.
      destruct (decide (j - length arr < i - length arr)%nat) as [Hin|Hout].
      * rewrite lookup_app_l by (rewrite length_replicate; lia).
        rewrite lookup_replicate_2 by done. rewrite decide_False by lia. done.
      * rewrite lookup_app_r by (rewrite length_replicate; lia).
        rewrite length_replicate.
        destruct (decide (i = j)) as [<-|Hne].
        -- by replace (i - length arr - (i - length arr))%nat with 0%nat by lia.
        -- destruct (j - length arr - (i - length arr))%nat as [|n] eqn:Hn;
             [lia|done].
Qed.

Lemma write_positions_lookup (char : string) (positions : list nat)
    (result : list (option string)) (j : nat) :
  mjoin (foldl (fun result position => array_set position char result)
           result positions !! j) =
    if decide (j ∈ positions) then Some char else mjoin (result !! j).
Proof.
  revert result. induction positions as [|p ps IH]; intros result.
  - cbn. by rewrite decide_False by inversion 1.
  - cbn [foldl]. rewrite IH, array_set_lookup.
    destruct (decide (j ∈ ps)) as [Hin|Hnin].
    + rewrite decide_True; [done|by apply list_elem_of_further].
    + destruct (decide (p = j)) as [->|Hne].
      * rewrite decide_True; [done|apply list_elem_of_here].
      * rewrite decide_False; [done|].
        rewrite elem_of_cons. intros [->|?]; done.
Qed.

Lemma write_positions_length (char : string) (positions : list nat)
    (result : list (option string)) :
  length (foldl (fun result position => array_set position char result)
            result positions) =
    (length result `max` max_list (S <$> positions))%nat.
Proof.
  revert result. induction positions as [|p ps IH]; intros result.
  - cbn. lia.
  - cbn [foldl]. rewrite IH, array_set_length. cbn. lia.
Qed.

Lemma write_entries_lookup (lettersObject : list (string * list nat))
    (result : list (option string)) (j : nat) :
  mjoin (foldl (fun result element =>
                  let '(char, positions) := element in
                  foldl (fun result position => array_set position char result)
                    result positions)
           result lettersObject !! j) =
    match last_writer j lettersObject with
    | Some char => Some char
    | None => mjoin (result !! j)
    end.
Proof.
  revert result.
  induction lettersObject as [|[char positions] L IH]; intros result; [done|].
  cbn [foldl]. rewrite IH. unfold last_writer.
  rewrite filter_cons. cbn [snd].
  destruct (decide (j ∈ positions)) as [Hin|Hnin].
  - rewrite last_cons.
    destruct (last (filter _ L)) as [e|]; cbn; [done|].
    rewrite write_positions_lookup. by rewrite decide_True.
  - destruct (last (filter _ L)) as [e|]; cbn; [done|].
    rewrite write_positions_lookup. by rewrite decide_False.
Qed.

Lemma max_list_append (l1 l2 : list nat) :
  max_list (l1 ++ l2) = (max_list l1 `max` max_list l2)%nat.
Proof. induction l1 as [|x l1 IH]; cbn; [done|]. rewrite IH. lia. Qed.

Lemma write_entries_length (lettersObject : list (string * list nat))
    (result : list (option string)) :
  length (foldl (fun result element =>
                   let '(char, positions) := element in
                   foldl (fun result position => array_set position char result)
                     result positions)
            result lettersObject) =
    (length result `max` max_list (S <$> (lettersObject ≫= snd)))%nat.
Proof.
  revert result.
  induction lettersObject as [|[char positions] L IH]; intros result.
  - cbn. lia.
  - cbn [foldl]. rewrite IH, write_positions_length, bind_cons, fmap_app.
    cbn [snd]. rewrite max_list_append. lia.
Qed.

(** X13: when every position listed is an array index (below 2^32 - 1),
    the array [makeWord] joins has, at every index, the key of the last
    entry that lists the index, and a hole where no entry lists it; its
    length is one more than the largest position listed (0 when none
    is). *)
Theorem makeWord_result_cells (lettersObject : list (string * list nat))
    (j : nat) :
  (forall char positions p,
     (char, positions) ∈ lettersObject -> p ∈ positions ->
     Z.of_nat p < 4294967295) ->
  mjoin (makeWord_result lettersObject !! j) = last_writer j lettersObject /\
  length (makeWord_result lettersObject) =
    max_list (S <$> (lettersObject ≫= snd)).
Proof.
  intros _. unfold makeWord_result. split.
  - rewrite write_entries_lookup. rewrite lookup_nil.
    by destruct (last_writer j lettersObject).
  - by rewrite write_entries_length.
Qed.

(** An instance: [{ a: [3], b: [1] }], whose array has two holes. *)
Lemma makeWord_result_cells_witness :
  mjoin (makeWord_result [("a", [3]); ("b", [1])]%nat !! 3%nat) = Some "a" /\
  length (makeWord_result [("a", [3]); ("b", [1])]%nat) = 4%nat.
Proof.
  apply (makeWord_result_cells [("a", [3]); ("b", [1])]%nat 3).
  intros char positions p He Hp.
  assert (HF : Forall (fun e : string * list nat =>
                 Forall (fun p => Z.of_nat p < 4294967295) e.2)
                 [("a", [3]); ("b", [1])]%nat)
    by (repeat constructor).
  rewrite Forall_forall in HF. specialize (HF _ He).
  rewrite Forall_forall in HF. exact (HF _ Hp).
Defined.

(** X14: when the positions listed are those of the letters of a word
    (every listed position has the listing key in the word, and every
    index of the word is listed), [makeWord] returns the word. *)
Theorem makeWord_spells (lettersObject : list (string * list nat))
    (word : list string) :
  (forall char positions p,
     (char, positions) ∈ lettersObject -> p ∈ positions ->
     word !! p = Some char) ->
  (forall i, (i < length word)%nat ->
     exists char positions, (char, positions) ∈ lettersObject /\ i ∈ positions) ->
  makeWord lettersObject = String.concat "" word.
Proof.
  intros Hin Hall. unfold makeWord, join_empty.
  assert (Hres : makeWord_result lettersObject = Some <$> word).
  { assert (Hlen : (length (makeWord_result lettersObject) <= length word)%nat).
    { unfold makeWord_result. rewrite write_entries_length. cbn.
      destruct (lettersObject ≫= snd) as [|p0 ps0] eqn:Hps; [cbn; lia|].
      rewrite <- Hps.
      assert (Hmax : max_list (S <$> (lettersObject ≫= snd))
                       ∈ S <$> (lettersObject ≫= snd)).
      { apply max_list_elem_of. by rewrite Hps. }
      apply list_elem_of_fmap in Hmax as (p & -> & Hp).
      apply list_elem_of_bind in Hp as ([char positions] & Hp & He).
      cbn in Hp. specialize (Hin _ _ _ He Hp).
      apply lookup_lt_Some in Hin. lia. }
    apply list_eq. intros j. rewrite list_lookup_fmap.
    destruct (decide (j < length word)%nat) as [Hj|Hj].
    - destruct (Hall j Hj) as (char & positions & He & Hp).
      pose proof (write_entries_lookup lettersObject [] j) as Hcell.
      fold (makeWord_result lettersObject) in Hcell.
      unfold last_writer in Hcell.
      destruct (last (filter (fun e : string * list nat => j ∈ e.2)
                        lettersObject)) as [[c ps]|] eqn:Hlast.
      + apply last_Some_elem_of, list_elem_of_filter in Hlast as [Hjp Hcp].
        cbn in Hjp, Hcell. rewrite (Hin _ _ _ Hcp Hjp). cbn.
        destruct (makeWord_result lettersObject !! j) as [[x|]|];
          cbn in Hcell; congruence.
      + apply last_None in Hlast.
        exfalso. eapply filter_nil_not_elem_of; [exact Hlast| |exact He]. done.
    - rewrite (lookup_ge_None_2 word j) by lia.
      apply lookup_ge_None_2. lia. }
  rewrite Hres, <- list_fmap_compose. f_equal. apply list_fmap_id.
Qed.

(** An instance: [{ a: [0, 1], b: [2, 3], c: [4, 5] }] and the word
    [aabbcc]. *)
Lemma makeWord_spells_witness :
  makeWord [("a", [0; 1]); ("b", [2; 3]); ("c", [4; 5])]%nat = "aabbcc".
Proof.
  apply (makeWord_spells [("a", [0; 1]); ("b", [2; 3]); ("c", [4; 5])]%nat
           ["a"; "a"; "b"; "b"; "c"; "c"]).
  - intros char positions p He Hp.
    assert (HF : Forall (fun e : string * list nat =>
                   Forall (fun p => ["a"; "a"; "b"; "b"; "c"; "c"] !! p
                                    = Some e.1) e.2)
                   [("a", [0; 1]); ("b", [2; 3]); ("c", [4; 5])]%nat)
      by (apply (bool_decide_unpack _); vm_compute; reflexivity).
    rewrite Forall_forall in HF. specialize (HF _ He).
    rewrite Forall_forall in HF. exact (HF _ Hp).
  - intros i Hi.
    assert (HF : Forall (fun i : nat =>
                   Exists (fun e : string * list nat => i ∈ e.2)
                     [("a", [0; 1]); ("b", [2; 3]); ("c", [4; 5])]%nat)
                   (seq 0 6))
      by (apply (bool_decide_unpack _); vm_compute; reflexivity).
    rewrite Forall_forall in HF.
    assert (Hseq : i ∈ seq 0 6) by (apply elem_of_seq; cbn in Hi; lia).
    specialize (HF _ Hseq). apply Exists_exists in HF as ([c ps] & He & Hp).
    by exists c, ps.
Defined.

(** * Properties of group *)

Section PropertyLists.

Context {V : Type}.

Lemma get_property_None (key : string) (obj : list (string * V)) :
  get_property key obj = None <-> key ∉ obj.*1.
Proof.
  induction obj as [|[k v] obj IH]; cbn.
  - split; [intros _; inversion 1|done].
  - rewrite not_elem_of_cons. destruct (decide (k = key)) as [->|Hne].
    + split; [done|intros [? _]; done].
    + rewrite IH. split; [intros ?; split; [congruence|done]|tauto].
Qed.

Lemma get_set_property (key k : string) (value : V) (obj : list (string * V)) :
  get_property k (set_property key value obj) =
    if decide (key = k) then Some value else get_property k obj.
Proof.
  induction obj as [|[k' v] obj IH]; cbn.
  - by destruct (decide (key = k)).
  - destruct (decide (k' = key)) as [->|Hne]; cbn.
    + by destruct (decide (key = k)).
    + destruct (decide (k' = k)) as [->|Hne'].
      * rewrite decide_False; [done|congruence].
      * exact IH.
Qed.

Lemma keys_set_property (key : string) (value : V) (obj : list (string * V)) :
  (set_property key value obj).*1 =
    if decide (key ∈ obj.*1) then obj.*1 else obj.*1 ++ [key].
Proof.
  induction obj as [|[k v] obj IH]; cbn.
  - rewrite decide_False; [done|inversion 1].
  - destruct (decide (k = key)) as [->|Hne]; cbn.
    + rewrite decide_True; [done|apply list_elem_of_here].
    + rewrite IH. destruct (decide (key ∈ obj.*1)) as [Hin|Hnin].
      * rewrite decide_True; [done|by apply list_elem_of_further].
      * rewrite decide_False; [done|].
        rewrite elem_of_cons. intros [?|?]; [congruence|done].
Qed.

End PropertyLists.

(** The number of values a map holds, over all its keys. *)
Lemma set_property_total (key : string) (value : list string)
    (map : list (string * list string)) :
  (sum_list (length ∘ snd <$> set_property key value map) +
     length (default [] (get_property key map)) =
   sum_list (length ∘ snd <$> map) + length value)%nat.
Proof.
  induction map as [|[k v] map IH]; cbn; [lia|].
  destruct (decide (k = key)) as [->|Hne]; cbn; lia.
Qed.

Section GroupProperties.

Context {A : Type} (keySelector valueSelector : A -> string).

Lemma group_step_eq (map : list (string * list string)) (element : A) :
  group_step keySelector valueSelector map element =
    set_property (keySelector element)
      (default [] (get_property (keySelector element) map)
         ++ [valueSelector element])
      map.
Proof.
  unfold group_step, Map_has, Map_get, Map_set.
  destruct (bool_decide_reflect (keySelector element ∈ map.*1)) as [Hin|Hnin].
  - destruct (get_property (keySelector element) map) eqn:Hget; [done|].
    by apply get_property_None in Hget.
  - apply get_property_None in Hnin. by rewrite Hnin.
Qed.

Lemma group_from_get (array : list A) (map : list (string * list string))
    (k : string) :
  get_property k (foldl (group_step keySelector valueSelector) map array) =
    match valueSelector <$> filter (fun x => keySelector x = k) array with
    | [] => get_property k map
    | vs => Some (default [] (get_property k map) ++ vs)
    end.
Proof.
  revert map. induction array as [|x array IH]; intros map; [done|].
  cbn [foldl]. rewrite IH, group_step_eq, get_set_property, filter_cons.
  destruct (decide (keySelector x = k)) as [Hk|Hk]; [|done].
  rewrite Hk. cbn.
  destruct (valueSelector <$> filter _ array) as [|v vs]; [done|].
  cbn. by rewrite <- app_assoc.
Qed.

Lemma group_from_keys (array : list A) (map : list (string * list string)) :
  (foldl (group_step keySelector valueSelector) map array).*1 =
    map.*1 ++ filter (fun k => k ∉ map.*1)
                (first_occurrences (keySelector <$> array)).
Proof.
  revert map. induction array as [|x array IH]; intros map.
  - cbn. by rewrite app_nil_r.
  - cbn [foldl fmap list_fmap first_occurrences].
    rewrite IH, group_step_eq, keys_set_property, filter_cons.
    destruct (decide (keySelector x ∈ map.*1)) as [Hin|Hnin].
    + rewrite decide_False by tauto. f_equal.
      rewrite list_filter_filter. apply list_filter_iff.
      intros k. split; [|tauto]. intros Hk. split; [done|congruence].
    + rewrite decide_True by done. rewrite <- app_assoc. cbn. do 2 f_equal.
      rewrite list_filter_filter. apply list_filter_iff.
      intros k. rewrite elem_of_app, list_elem_of_singleton. tauto.
Qed.

Lemma group_from_total (array : list A) (map : list (string * list string)) :
  sum_list (length ∘ snd <$>
              foldl (group_step keySelector valueSelector) map array) =
    (sum_list (length ∘ snd <$> map) + length array)%nat.
Proof.
  revert map. induction array as [|x array IH]; intros map; [cbn; lia|].
  cbn [foldl]. rewrite IH, group_step_eq.
  pose proof (set_property_total (keySelector x)
                (default [] (get_property (keySelector x) map)
                   ++ [valueSelector x]) map) as H.
  rewrite length_app in H. cbn in H |- *. lia.
Qed.

(** X15: the map holds, for a key, the values of the elements that have
    this key, in the order of the array; a key that no element has is not
    in the map. *)
Theorem group_get (array : list A) (k : string) :
  Map_get k (group keySelector valueSelector array) =
    match valueSelector <$> filter (fun x => keySelector x = k) array with
    | [] => None
    | vs => Some vs
    end.
Proof. unfold Map_get, group. by rewrite group_from_get. Qed.

(** X16: the keys of the map are the keys of the elements, each once, in
    the order in which they first occur in the array. *)
Theorem group_keys (array : list A) :
  (group keySelector valueSelector array).*1 =
    first_occurrences (keySelector <$> array).
Proof.
  unfold group. rewrite group_from_keys. cbn.
  apply filter_all. intros k _. inversion 1.
Qed.

(** X17: no element is dropped and none is counted twice: the lists of
    the map have together as many values as the array has elements. *)
Theorem group_total (array : list A) :
  sum_list (length ∘ snd <$> group keySelector valueSelector array) =
    length array.
Proof. unfold group. by rewrite group_from_total. Qed.

End GroupProperties.

(** * Properties of sortCitiesArray *)

Section Consistent.

Context {T : Type} (cmp : T -> T -> Z) (Hcmp : consistent cmp).

Lemma consistent_flip (a b : T) :
  (cmp a b = 0 <-> cmp b a = 0) /\ (0 < cmp a b <-> cmp b a < 0).
Proof. destruct Hcmp as [Hs _]. specialize (Hs a b). lia. Qed.

Lemma consistent_total (a b : T) : ~ cmp a b <= 0 -> cmp b a <= 0.
Proof. destruct (consistent_flip a b). lia. Qed.

Lemma consistent_lt_le (a b c : T) :
  cmp a b < 0 -> cmp b c <= 0 -> cmp a c < 0.
Proof.
  intros Hab Hbc. destruct Hcmp as [_ Ht].
  destruct (Z_lt_le_dec (cmp a c) 0) as [|Hac]; [done|].
  assert (cmp c a <= 0) by (destruct (consistent_flip a c); lia).
  pose proof (Ht b c a Hbc ltac:(done)).
  destruct (consistent_flip a b). lia.
Qed.

Lemma consistent_le_lt (a b c : T) :
  cmp a b <= 0 -> cmp b c < 0 -> cmp a c < 0.
Proof.
  intros Hab Hbc. destruct Hcmp as [_ Ht].
  destruct (Z_lt_le_dec (cmp a c) 0) as [|Hac]; [done|].
  assert (cmp c a <= 0) by (destruct (consistent_flip a c); lia).
  pose proof (Ht c a b ltac:(done) Hab).
  destruct (consistent_flip b c). lia.
Qed.

Lemma consistent_eq (a b c : T) :
  cmp a b = 0 -> cmp b c = 0 -> cmp a c = 0.
Proof.
  intros Hab Hbc. destruct Hcmp as [_ Ht].
  pose proof (Ht a b c ltac:(lia) ltac:(lia)).
  destruct (consistent_flip a b), (consistent_flip b c).
  pose proof (Ht c b a ltac:(lia) ltac:(lia)).
  destruct (consistent_flip a c). lia.
Qed.

End Consistent.

Lemma compare_length_consistent : consistent compare_length.
Proof. unfold consistent, compare_length. split; intros; lia. Qed.

Section SortCitiesProperties.

Context (localeCompare : string -> string -> Z).

(** The comparator is by country, and by city when the countries compare
    as equal. *)
Lemma compareCities_cases (a b : GeoEntity) :
  (localeCompare (country a) (country b) <> 0 /\
   compareCities localeCompare a b = localeCompare (country a) (country b)) \/
  (localeCompare (country a) (country b) = 0 /\
   compareCities localeCompare a b = localeCompare (city a) (city b)).
Proof.
  unfold compareCities.
  destruct (Z.eqb_spec (localeCompare (country a) (country b)) 0); cbn; auto.
Qed.

Lemma compareCities_consistent_aux :
  consistent localeCompare -> consistent (compareCities localeCompare).
Proof.
  intros Hlc. split.
  - intros a b.
    destruct (compareCities_cases a b) as [[Hx ->]|[Hx ->]],
             (compareCities_cases b a) as [[Hy ->]|[Hy ->]];
      try apply Hlc;
      destruct (consistent_flip _ Hlc (country a) (country b)); lia.
  - intros a b c Hab Hbc.
    destruct (compareCities_cases a b) as [[Hx Hab']|[Hx Hab']],
             (compareCities_cases b c) as [[Hy Hbc']|[Hy Hbc']];
      rewrite Hab' in Hab; rewrite Hbc' in Hbc.
    + pose proof (consistent_lt_le _ Hlc (country a) (country b) (country c)
                    ltac:(lia) ltac:(lia)).
      destruct (compareCities_cases a c) as [[_ ->]|[? _]]; lia.
    + pose proof (consistent_lt_le _ Hlc (country a) (country b) (country c)
                    ltac:(lia) ltac:(lia)).
      destruct (compareCities_cases a c) as [[_ ->]|[? _]]; lia.
    + pose proof (consistent_le_lt _ Hlc (country a) (country b) (country c)
                    ltac:(lia) ltac:(lia)).
      destruct (compareCities_cases a c) as [[_ ->]|[? _]]; lia.
    + pose proof (consistent_eq _ Hlc (country a) (country b) (country c)
                    Hx Hy).
      destruct (compareCities_cases a c) as [[? _]|[_ ->]]; [lia|].
      by apply (proj2 Hlc _ (city b)).
Qed.

(** X18: the comparator given to [sort] orders by country first and by
    city among equal countries, and it is a consistent comparator
    whenever [localeCompare] is one. *)
Theorem compareCities_consistent :
  consistent localeCompare ->
  consistent (compareCities localeCompare) /\
  (forall a b,
     localeCompare (country a) (country b) < 0 ->
     compareCities localeCompare a b < 0) /\
  (forall a b,
     localeCompare (country a) (country b) = 0 ->
     compareCities localeCompare a b = localeCompare (city a) (city b)).
Proof.
  intros Hlc. split; [by apply compareCities_consistent_aux|split].
  - intros a b Hlt.
    destruct (compareCities_cases a b) as [[_ ->]|[? _]]; lia.
  - intros a b Heq.
    destruct (compareCities_cases a b) as [[? _]|[_ ->]]; [lia|done].
Qed.

Lemma sort_insert_permutation (x : GeoEntity) (l : list GeoEntity) :
  sort_insert localeCompare x l ≡ₚ x :: l.
Proof.
  induction l as [|y l IH]; cbn; [done|].
  destruct (compareCities localeCompare x y <=? 0); [done|].
  rewrite IH. apply perm_swap.
Qed.

Lemma sort_insert_sorted (x : GeoEntity) (l : list GeoEntity) :
  consistent (compareCities localeCompare) ->
  StronglySorted (fun a b => compareCities localeCompare a b <= 0) l ->
  StronglySorted (fun a b => compareCities localeCompare a b <= 0)
    (sort_insert localeCompare x l).
Proof.
  intros Hc. induction l as [|y l IH]; intros Hl; cbn.
  - repeat constructor.
  - apply StronglySorted_cons in Hl as [Hy Hl].
    destruct (Z.leb_spec (compareCities localeCompare x y) 0) as [Hle|Hgt].
    + constructor; [by constructor|]. constructor; [done|].
      eapply Forall_impl; [exact Hy|]. intros z Hz. cbn in Hz.
      by apply (proj2 Hc x y z).
    + constructor; [by apply IH|].
      rewrite sort_insert_permutation. constructor; [|done].
      apply (consistent_total _ Hc). lia.
Qed.

Lemma sort_insert_head (x : GeoEntity) (l : list GeoEntity) :
  Forall (fun y => compareCities localeCompare x y <= 0) l ->
  sort_insert localeCompare x l = x :: l.
Proof.
  destruct l as [|y l]; [done|]. intros Hl. cbn.
  apply Forall_cons in Hl as [Hy _].
  by rewrite (proj2 (Z.leb_le _ _) Hy).
Qed.

(** X19: with a consistent [localeCompare], the array returned has the
    elements of the array given, and every element in it comes before
    the elements it is followed by: by country, and by city within a
    country. *)
Theorem sortCitiesArray_sorted (arr : list GeoEntity) :
  consistent localeCompare ->
  sortCitiesArray localeCompare arr ≡ₚ arr /\
  StronglySorted (fun a b => compareCities localeCompare a b <= 0)
    (sortCitiesArray localeCompare arr).
Proof.
  intros Hlc. pose proof (compareCities_consistent_aux Hlc) as Hc.
  unfold sortCitiesArray. induction arr as [|x arr [IHp IHs]]; cbn.
  - split; [done|constructor].
  - split; [by rewrite sort_insert_permutation, IHp|].
    by apply sort_insert_sorted.
Qed.

(** X20: an array that is in order already is returned as it is; so
    sorting a second time changes nothing. *)
Theorem sortCitiesArray_fixed (arr : list GeoEntity) :
  (StronglySorted (fun a b => compareCities localeCompare a b <= 0) arr ->
   sortCitiesArray localeCompare arr = arr) /\
  (consistent localeCompare ->
   sortCitiesArray localeCompare (sortCitiesArray localeCompare arr) =
   sortCitiesArray localeCompare arr).
Proof.
  assert (Hfix : forall l,
    StronglySorted (fun a b => compareCities localeCompare a b <= 0) l ->
    sortCitiesArray localeCompare l = l).
  { unfold sortCitiesArray. induction l as [|x l IH]; [done|].
    intros [Hx Hl]%StronglySorted_cons. cbn. rewrite IH by done.
    by apply sort_insert_head. }
  split; [apply Hfix|]. intros Hlc. apply Hfix.
  pose proof (compareCities_consistent_aux Hlc) as Hc.
  unfold sortCitiesArray. induction arr as [|x arr IH]; cbn; [constructor|].
  by apply sort_insert_sorted.
Qed.

End SortCitiesProperties.

(** Instances, with comparison by length as [localeCompare]. *)
Lemma compareCities_consistent_witness :
  compareCities compare_length (mkGeo "Poland" "Warsaw") (mkGeo "Russia" "Omsk") =
    compare_length "Warsaw" "Omsk".
Proof.
  destruct (compareCities_consistent compare_length compare_length_consistent)
    as (_ & _ & H).
  apply H. reflexivity.
Defined.

Lemma sortCitiesArray_sorted_witness :
  sortCitiesArray compare_length
    [mkGeo "Russia" "Moscow"; mkGeo "Belarus" "Minsk"; mkGeo "Poland" "Lodz"]
  ≡ₚ [mkGeo "Russia" "Moscow"; mkGeo "Belarus" "Minsk"; mkGeo "Poland" "Lodz"].
Proof.
  apply (sortCitiesArray_sorted compare_length
           [mkGeo "Russia" "Moscow"; mkGeo "Belarus" "Minsk";
            mkGeo "Poland" "Lodz"]
           compare_length_consistent).
Defined.

Lemma sortCitiesArray_fixed_witness :
  sortCitiesArray compare_length
    (sortCitiesArray compare_length
       [mkGeo "Russia" "Moscow"; mkGeo "Belarus" "Minsk"]) =
  sortCitiesArray compare_length
    [mkGeo "Russia" "Moscow"; mkGeo "Belarus" "Minsk"].
Proof.
  destruct (sortCitiesArray_fixed compare_length
              [mkGeo "Russia" "Moscow"; mkGeo "Belarus" "Minsk"]) as [_ H].
  exact (H compare_length_consistent).
Defined.

(** * More on sellTickets *)

Lemma serve_other (box : Tickets.cashbox) (key : Z) :
  ~ bill_ok key -> Tickets.serve box key = Some box.
Proof.
  unfold bill_ok. intros Hk. unfold Tickets.serve.
  destruct (Z.eqb_spec key 25); [lia|].
  destruct (Z.eqb_spec key 50); [lia|].
  destruct (Z.eqb_spec key 100); [lia|]. reflexivity.
Qed.

Lemma loop_cashbox_after (queue : list Z) (box : Tickets.cashbox) :
  Tickets.loop box queue = bool_decide (is_Some (cashbox_after box queue)).
Proof.
  revert box.
  induction queue as [|key rest IH]; intros box;
    cbn [Tickets.loop cashbox_after]; [done|].
  destruct (Tickets.serve box key); [apply IH|done].
Qed.

Lemma serve_takings (box box' : Tickets.cashbox) (key : Z) :
  Tickets.serve box key = Some box' ->
  0 <= Tickets.c25 box -> 0 <= Tickets.c50 box ->
  0 <= Tickets.c25 box' /\ 0 <= Tickets.c50 box' /\
  Tickets.c25 box' + 2 * Tickets.c50 box' + (if key =? 100 then 4 else 0) =
    Tickets.c25 box + 2 * Tickets.c50 box +
    (if decide (bill_ok key) then 1 else 0).
Proof.
  intros Hs H25 H50. destruct (decide (bill_ok key)) as [[->|[->| ->]]|Hk].
  - rewrite serve_25 in Hs. injection Hs as <-. cbn. lia.
  - rewrite serve_50 in Hs. case_gtb; [|done]. injection Hs as <-. cbn. lia.
  - rewrite serve_100 in Hs. case_gtb; try done; injection Hs as <-; cbn; lia.
  - rewrite serve_other in Hs by done. injection Hs as <-.
    unfold bill_ok in Hk. destruct (Z.eqb_spec key 100); lia.
Qed.

(** X21: a bill that is not 25, 50 or 100 is passed over: the result is
    the one for the queue without it. *)
Theorem sellTickets_skips_other_bills (before after : list Z) (key : Z) :
  ~ bill_ok key ->
  Tickets.sellTickets (before ++ key :: after) =
  Tickets.sellTickets (before ++ after).
Proof.
  intros Hk. unfold Tickets.sellTickets.
  generalize {| Tickets.c25 := 0; Tickets.c50 := 0 |}.
  induction before as [|b before IH]; intros box; cbn [app Tickets.loop].
  - by rewrite serve_other.
  - destruct (Tickets.serve box b); [apply IH|done].
Qed.

(** An instance: a bill of 10 among 25, 25 and 50. *)
Lemma sellTickets_skips_other_bills_witness :
  Tickets.sellTickets ([25; 25] ++ 10 :: [50]) =
  Tickets.sellTickets ([25; 25] ++ [50]).
Proof.
  apply (sellTickets_skips_other_bills [25; 25] [50] 10).
  unfold bill_ok. lia.
Defined.

(** X22: when the tickets can be sold to a queue, they can be sold to
    everyone at its front; and a queue whose first bill is 50 or 100
    cannot be served. *)
Theorem sellTickets_front (front rest : list Z) :
  (Tickets.sellTickets (front ++ rest) = true ->
   Tickets.sellTickets front = true) /\
  Tickets.sellTickets (50 :: rest) = false /\
  Tickets.sellTickets (100 :: rest) = false.
Proof.
  split; [|split; reflexivity].
  unfold Tickets.sellTickets.
  generalize {| Tickets.c25 := 0; Tickets.c50 := 0 |}.
  induction front as [|b front IH]; intros box; cbn [app Tickets.loop];
    [done|].
  destruct (Tickets.serve box b); [apply IH|done].
Qed.

(** An instance: the front [25, 25, 50] of [25, 25, 50, 100]. *)
Lemma sellTickets_front_witness :
  Tickets.sellTickets [25; 25; 50] = true.
Proof.
  destruct (sellTickets_front [25; 25; 50] [100]) as [H _].
  apply H. reflexivity.
Defined.

(** X23: when the loop gets through the queue, [sellTickets] returns
    [true], the cashbox holds no negative number of bills, and it holds
    the takings: counting a 25 as one, a 50 as two and each 100 taken as
    four, as many units as tickets were paid for. *)
Theorem cashbox_holds_takings (queue : list Z) (box : Tickets.cashbox) :
  cashbox_after {| Tickets.c25 := 0; Tickets.c50 := 0 |} queue = Some box ->
  Tickets.sellTickets queue = true /\
  0 <= Tickets.c25 box /\ 0 <= Tickets.c50 box /\
  Tickets.c25 box + 2 * Tickets.c50 box +
    4 * Z.of_nat (length (filter (fun key => key = 100) queue)) =
  Z.of_nat (length (filter bill_ok queue)).
Proof.
  assert (H : forall q b0 b,
    cashbox_after b0 q = Some b ->
    0 <= Tickets.c25 b0 -> 0 <= Tickets.c50 b0 ->
    0 <= Tickets.c25 b /\ 0 <= Tickets.c50 b /\
    Tickets.c25 b + 2 * Tickets.c50 b +
      4 * Z.of_nat (length (filter (fun key => key = 100) q)) =
    Tickets.c25 b0 + 2 * Tickets.c50 b0 +
      Z.of_nat (length (filter bill_ok q))).
  { induction q as [|key rest IH]; intros b0 b; cbn [cashbox_after].
    - intros [= ->]. cbn. lia.
    - destruct (Tickets.serve b0 key) as [b1|] eqn:Hs; [|done].
      intros Hrest H25 H50.
      destruct (serve_takings _ _ _ Hs H25 H50) as (H25' & H50' & Hstep).
      destruct (IH _ _ Hrest H25' H50') as (? & ? & Hsum).
      rewrite !filter_cons.
      destruct (decide (bill_ok key)), (decide (key = 100)) as [->|Hne];
        cbn [length]; try rewrite Z.eqb_refl in Hstep;
        try (destruct (Z.eqb_spec key 100); [done|]); lia. }
  intros Hq. split.
  { unfold Tickets.sellTickets. rewrite loop_cashbox_after, Hq.
    by apply bool_decide_eq_true_2. }
  destruct (H _ _ _ Hq ltac:(cbn; lia) ltac:(cbn; lia)) as (? & ? & Hsum).
  cbn in Hsum. lia.
Qed.

(** An instance: the queue [25, 25, 50, 100] leaves the cashbox with no
    25 and no 50. *)
Lemma cashbox_holds_takings_witness :
  cashbox_after {| Tickets.c25 := 0; Tickets.c50 := 0 |} [25; 25; 50; 100] =
    Some {| Tickets.c25 := 0; Tickets.c50 := 0 |} /\
  0 + 2 * 0 + 4 * Z.of_nat (length (filter (fun key => key = 100) [25; 25; 50; 100])) =
  Z.of_nat (length (filter bill_ok [25; 25; 50; 100])).
Proof.
  split; [reflexivity|].
  destruct (cashbox_holds_takings [25; 25; 50; 100]
              {| Tickets.c25 := 0; Tickets.c50 := 0 |} eq_refl)
    as (_ & _ & _ & H).
  exact H.
Defined.

(** * More on compareObjects *)

(** X24: when [===] is equality on the values, [compareObjects] is an
    equivalence: an object is equal to itself, the order of the two
    arguments does not matter, and two objects equal to a third are
    equal. *)
Theorem compareObjects_equivalence {V : Type} (strict_equal : V -> V -> bool)
    (obj1 obj2 obj3 : list (string * V)) :
  (forall v w, strict_equal v w = true <-> v = w) ->
  compareObjects strict_equal obj1 obj1 = true /\
  compareObjects strict_equal obj1 obj2 = compareObjects strict_equal obj2 obj1 /\
  (compareObjects strict_equal obj1 obj2 = true ->
   compareObjects strict_equal obj2 obj3 = true ->
   compareObjects strict_equal obj1 obj3 = true).
Proof.
  intros Heq. split; [by apply compareObjects_eq|]. split.
  - apply Bool.eq_iff_eq_true. rewrite !compareObjects_eq by done.
    split; congruence.
  - rewrite !compareObjects_eq by done. congruence.
Qed.

(** An instance: booleans as values, three times [{a: true, b: false}]. *)
Lemma compareObjects_equivalence_witness :
  compareObjects Bool.eqb [("a", true); ("b", false)]
    [("a", true); ("b", false)] = true.
Proof.
  assert (Heq : forall v w, Bool.eqb v w = true <-> v = w).
  { intros v w. split; [apply Bool.eqb_prop|intros ->; apply Bool.eqb_reflx]. }
  destruct (compareObjects_equivalence Bool.eqb
              [("a", true); ("b", false)] [("a", true); ("b", false)]
              [("a", true); ("b", false)] Heq)
    as (_ & _ & H).
  apply H; reflexivity.
Defined.
